(** * update-docs.js: the documentation mirror pipeline

    A shallow embedding of [scripts/update-docs.js]: the slug function, the
    sitemap filter, the navigation extractor, the categorizer/downloader
    loop, the index generator and [main], with the properties the
    specification states about them. *)

From Stdlib Require Import NArith Ascii String.
From stdpp Require Import base option list gmap.

Open Scope N_scope.

(** ** JavaScript strings

    A JS string is a sequence of UTF-16 code units. [===] on strings is
    equality of these sequences, [a + b] is [a ++ b]. *)

Abbreviation jsstring := (list N).

(** ASCII literals of the source text. *)
Fixpoint js (s : string) : jsstring :=
  match s with
  | EmptyString => []
  | String a s' => N_of_ascii a :: js s'
  end.

Definition LF : jsstring := [10].
Definition SLASH : N := 47.
Definition DOT : N := 46.
Definition HYPHEN : N := 45.

(** [s.startsWith(p)] *)
Fixpoint startsWith (s p : jsstring) {struct p} : bool :=
  match p, s with
  | [], _ => true
  | _ :: _, [] => false
  | a :: p', b :: s' => (a =? b) && startsWith s' p'
  end.

(** The class [\s] of a JS regular expression, which is also what
    [String.prototype.trim] strips: WhiteSpace and LineTerminator. *)
Definition is_whitespace (c : N) : bool :=
  ((9 <=? c) && (c <=? 13)) || (c =? 32) || (c =? 160) || (c =? 5760)
  || ((8192 <=? c) && (c <=? 8202))
  || (c =? 8232) || (c =? 8233) || (c =? 8239) || (c =? 8287)
  || (c =? 12288) || (c =? 65279).

(** The complement of the class [[^a-z0-9-]]. *)
Definition is_slug_char (c : N) : bool :=
  ((97 <=? c) && (c <=? 122)) || ((48 <=? c) && (c <=? 57)) || (c =? HYPHEN).

(** [toLowerCase], one code unit at a time. It is exact on ASCII and on the
    two code points outside ASCII whose lower case form contains an ASCII
    letter (U+0130, which becomes [i] followed by U+0307, and U+212A, the
    Kelvin sign, which becomes [k]). Every other code unit is kept as it is:
    JS maps it to code units that are again outside ASCII and outside [\s],
    so the two [replace] calls of [slugify] delete it in both cases. *)
Definition lower_unit (c : N) : jsstring :=
  if (65 <=? c) && (c <=? 90) then [c + 32]
  else if c =? 304 then [105; 775]
  else if c =? 8490 then [107]
  else [c].

Definition toLowerCase (s : jsstring) : jsstring := s ≫= lower_unit.

(** [s.replace(/\s+/g, '-')]: the scan emits one hyphen when it enters a run
    of whitespace and skips the rest of the run. *)
Fixpoint replace_ws_from (in_run : bool) (s : jsstring) : jsstring :=
  match s with
  | [] => []
  | c :: s' =>
      if is_whitespace c
      then (if in_run then [] else [HYPHEN]) ++ replace_ws_from true s'
      else c :: replace_ws_from false s'
  end.

Definition replace_ws_runs (s : jsstring) : jsstring := replace_ws_from false s.

(** [s.replace(/[^a-z0-9-]/g, '')] *)
Definition strip_non_slug (s : jsstring) : jsstring :=
  List.filter is_slug_char s.

(** [const slugify = (text) =>
      text.toLowerCase().replace(/\s+/g, '-').replace(/[^a-z0-9-]/g, '')] *)
Definition slugify (text : jsstring) : jsstring :=
  strip_non_slug (replace_ws_runs (toLowerCase text)).

(** [s.trim()] *)
Fixpoint trimStart (s : jsstring) : jsstring :=
  match s with
  | [] => []
  | c :: s' => if is_whitespace c then trimStart s' else s
  end.

Definition trim (s : jsstring) : jsstring :=
  reverse (trimStart (reverse (trimStart s))).

(** ** The words of the specification for the slug

    The maximal runs of a string: consecutive code units that are all
    whitespace or all not, as long as possible. *)
Fixpoint ws_blocks (s : jsstring) : list (bool * jsstring) :=
  match s with
  | [] => []
  | c :: s' =>
      match ws_blocks s' with
      | (w, b) :: rest =>
          if Bool.eqb w (is_whitespace c) then (w, c :: b) :: rest
          else (is_whitespace c, [c]) :: (w, b) :: rest
      | [] => [(is_whitespace c, [c])]
      end
  end.

(** What a decomposition into maximal runs is. *)
Fixpoint alternating (bs : list (bool * jsstring)) : Prop :=
  match bs with
  | b1 :: ((b2 :: _) as rest) => b1.1 ≠ b2.1 ∧ alternating rest
  | _ => True
  end.

Definition maximal_runs (s : jsstring) (bs : list (bool * jsstring)) : Prop :=
  mjoin (snd <$> bs) = s
  ∧ Forall (λ b, b.2 ≠ [] ∧ Forall (λ c, is_whitespace c = b.1) b.2) bs
  ∧ alternating bs.

(** A run of whitespace becomes one hyphen, any other run stays. *)
Definition hyphenate (b : bool * jsstring) : jsstring :=
  if b.1 then [HYPHEN] else b.2.

Definition slugify_spec (text : jsstring) : jsstring :=
  List.filter is_slug_char (mjoin (hyphenate <$> ws_blocks (toLowerCase text))).

(** ** Node's [path] module (POSIX flavour)

    [path.basename(p)]: the scan runs from the end of [p], skips the
    separators that end it and collects code units up to the next one. *)
Fixpoint drop_slashes (s : jsstring) : jsstring :=
  match s with
  | [] => []
  | c :: s' => if c =? SLASH then drop_slashes s' else s
  end.

Fixpoint take_to_slash (s : jsstring) : jsstring :=
  match s with
  | [] => []
  | c :: s' => if c =? SLASH then [] else c :: take_to_slash s'
  end.

Definition basename (p : jsstring) : jsstring :=
  reverse (take_to_slash (drop_slashes (reverse p))).

(** [p.split('/')] *)
Fixpoint split_slash (s : jsstring) : list jsstring :=
  match s with
  | [] => [[]]
  | c :: s' =>
      if c =? SLASH then [] :: split_slash s'
      else match split_slash s' with
           | seg :: rest => (c :: seg) :: rest
           | [] => [[c]]
           end
  end.

(** [segs.join('/')] *)
Fixpoint join_slash (segs : list jsstring) : jsstring :=
  match segs with
  | [] => []
  | [seg] => seg
  | seg :: rest => seg ++ SLASH :: join_slash rest
  end.

(** One step of [normalizeString]: [res] is the stack of the segments kept
    so far, the last one first. Empty segments and [.] are dropped, [..]
    removes the segment before it, or is kept when there is none to remove
    and the path is relative. *)
Definition normalize_step (allowAboveRoot : bool) (res : list jsstring)
    (seg : jsstring) : list jsstring :=
  if bool_decide (seg = []) || bool_decide (seg = [DOT]) then res
  else if bool_decide (seg = [DOT; DOT]) then
    match res with
    | top :: below =>
        if bool_decide (top = [DOT; DOT])
        then (if allowAboveRoot then seg :: res else res)
        else below
    | [] => if allowAboveRoot then [seg] else []
    end
  else seg :: res.

Definition normalizeString (p : jsstring) (allowAboveRoot : bool) : jsstring :=
  join_slash (reverse (foldl (normalize_step allowAboveRoot) [] (split_slash p))).

(** [path.normalize(p)] *)
Definition normalize (p : jsstring) : jsstring :=
  match p with
  | [] => [DOT]
  | c :: _ =>
      let isAbsolute := c =? SLASH in
      let trailingSeparator :=
        match last p with Some d => d =? SLASH | None => false end in
      let q := normalizeString p (negb isAbsolute) in
      match q with
      | [] =>
          if isAbsolute then [SLASH]
          else if trailingSeparator then [DOT; SLASH] else [DOT]
      | _ =>
          (if isAbsolute then [SLASH] else [])
          ++ q ++ (if trailingSeparator then [SLASH] else [])
      end
  end.

(** [path.join(...args)]: the arguments that are not empty, joined by a
    separator, then normalized. *)
Definition path_join (args : list jsstring) : jsstring :=
  match List.filter (λ a, negb (bool_decide (a = []))) args with
  | [] => [DOT]
  | parts => normalize (join_slash parts)
  end.

(** ** Configuration *)

Definition SITEMAP_URL : jsstring := js "https://docs.anthropic.com/sitemap.xml".
Definition NAV_PAGE_URL : jsstring :=
  js "https://docs.anthropic.com/en/docs/claude-code/overview".
Definition URL_PREFIX : jsstring :=
  js "https://docs.anthropic.com/en/docs/claude-code/".
Definition BASE_URL : jsstring := js "https://docs.anthropic.com".
Definition DOCS_DIR : jsstring := js "docs".
Definition ROOT_README_PATH : jsstring := js "README.md".

(** ** Errors

    A rejected promise or a thrown exception carries an [Error] object; the
    code reads its [message]. *)
Record Error := { message : jsstring }.

Inductive result (A : Type) : Type :=
  | Ok (a : A)
  | Throw (e : Error).
Arguments Ok {A} a.
Arguments Throw {A} e.

Definition TypeError (msg : string) : Error := {| message := js msg |}.

(** ** Data model *)

Module FileRef.
Record t := { slug : jsstring; title : jsstring; href : jsstring }.
End FileRef.

Module Category.
Record t := { title : jsstring; slug : jsstring; files : list FileRef.t }.
End Category.

Module OtherFile.
Record t := { slug : jsstring; title : jsstring }.
End OtherFile.

#[global] Instance FileRef_eq_dec : EqDecision FileRef.t.
Proof. solve_decision. Defined.
#[global] Instance Category_eq_dec : EqDecision Category.t.
Proof. solve_decision. Defined.
#[global] Instance OtherFile_eq_dec : EqDecision OtherFile.t.
Proof. solve_decision. Defined.

(** ** Step 1: the sitemap

    What [xml2js] hands back for [sitemap.xml]: every child element is an
    array under its tag name. [result.urlset.url] is [undefined] when the
    root has no [<url>] child; a [<url>] without [<loc>] has no [loc]
    property (the empty list here); a [<loc>] with attributes or children is
    an object, not a string. A document whose root is not [<urlset>] has no
    value of its own here: [result.urlset] is [undefined] then and the
    source throws a [TypeError] as for a root without [<url>], with another
    message (reading 'url'); no property below depends on the message. *)
Inductive xml_value :=
  | XText (s : jsstring)
  | XObject.

Record UrlEntry := { loc : list xml_value }.

Record Sitemap := { urlset_url : option (list UrlEntry) }.

(** [(url) => url.loc[0]] *)
Definition first_loc (url : UrlEntry) : result xml_value :=
  match loc url with
  | v :: _ => Ok v
  | [] => Throw (TypeError "Cannot read properties of undefined (reading '0')")
  end.

(** [allUrls = result.urlset.url.map((url) => url.loc[0])] *)
Fixpoint map_first_loc (urls : list UrlEntry) : result (list xml_value) :=
  match urls with
  | [] => Ok []
  | u :: rest =>
      match first_loc u with
      | Throw e => Throw e
      | Ok v =>
          match map_first_loc rest with
          | Throw e => Throw e
          | Ok vs => Ok (v :: vs)
          end
      end
  end.

(** [allUrls.filter((url) => url.startsWith(URL_PREFIX))] *)
Fixpoint filter_prefix (allUrls : list xml_value) : result (list jsstring) :=
  match allUrls with
  | [] => Ok []
  | XObject :: _ => Throw (TypeError "url.startsWith is not a function")
  | XText url :: rest =>
      match filter_prefix rest with
      | Throw e => Throw e
      | Ok claudeUrls =>
          Ok (if startsWith url URL_PREFIX then url :: claudeUrls else claudeUrls)
      end
  end.

(** The pure part of [fetchAllUrlsFromSitemap], from the parsed document. *)
Definition sitemap_urls (parsed : Sitemap) : result (list jsstring) :=
  match urlset_url parsed with
  | None =>
      Throw (TypeError "Cannot read properties of undefined (reading 'map')")
  | Some urls =>
      match map_first_loc urls with
      | Throw e => Throw e
      | Ok allUrls => filter_prefix allUrls
      end
  end.

(** ** Step 2: the navigation page

    What the two [cheerio] queries return for one [#navigation-items > div]:
    the text of every [h5#sidebar-title] below it ([.text()] concatenates
    them, and is empty when there is none) and the [a] elements below
    [ul#sidebar-group li], in document order. *)
Record Anchor := { attr_href : option jsstring; anchor_text : jsstring }.

Record NavGroup := { sidebar_titles : list jsstring; sidebar_links : list Anchor }.

(** The callback of the inner [.each]: [if (href)] is false for a missing
    attribute and for the empty string. *)
Definition push_link (files : list FileRef.t) (a : Anchor) : list FileRef.t :=
  let fileTitle := trim (anchor_text a) in
  match attr_href a with
  | Some (c :: h) =>
      let href := c :: h in
      let fileSlug := basename href in
      files ++ [ {| FileRef.slug := fileSlug; FileRef.title := fileTitle;
                    FileRef.href := BASE_URL ++ href |} ]
  | Some [] | None => files
  end.

(** The callback of the outer [.each]: [if (!categoryTitle) return;] *)
Definition push_category (structure : list Category.t) (div : NavGroup)
    : list Category.t :=
  let categoryTitle := trim (mjoin (sidebar_titles div)) in
  match categoryTitle with
  | [] => structure
  | _ =>
      let categorySlug := slugify categoryTitle in
      structure ++
        [ {| Category.title := categoryTitle; Category.slug := categorySlug;
             Category.files := foldl push_link [] (sidebar_links div) |} ]
  end.

(** The pure part of [fetchNavigationStructure], from the parsed page. *)
Definition navigation_structure (page : list NavGroup) : list Category.t :=
  foldl push_category [] page.

(** ** Step 3: categorizing

    [for (const category of navStructure) { if (category.files.some(...))
    { categorySlug = category.slug; break; } }], [None] being [null]. *)
Fixpoint scan_categories (url : jsstring) (navStructure : list Category.t)
    : option jsstring :=
  match navStructure with
  | [] => None
  | category :: rest =>
      if existsb (λ file, bool_decide (FileRef.href file = url))
           (Category.files category)
      then Some (Category.slug category)
      else scan_categories url rest
  end.

(** [!categorySlug]: true for [null] and for the empty string. *)
Definition falsy (categorySlug : option jsstring) : bool :=
  match categorySlug with
  | None | Some [] => true
  | Some (_ :: _) => false
  end.

(** One promise of [downloadPromises]: the URL it fetches and the file it
    writes. *)
Record Download := {
  dl_url : jsstring;
  urlMdFile : jsstring;
  filePath : jsstring;
  dirPath : jsstring
}.

#[global] Instance Download_eq_dec : EqDecision Download.
Proof. solve_decision. Defined.

(** The synchronous part of one iteration, up to [await fs.mkdir]: the
    [otherFiles] after it and the download it prepares. *)
Definition categorize (navStructure : list Category.t)
    (otherFiles : list OtherFile.t) (url : jsstring)
    : list OtherFile.t * Download :=
  let urlMdFile := url ++ js ".md" in
  let categorySlug := scan_categories url navStructure in
  let fileSlug := basename url in
  let '(categorySlug, otherFiles) :=
    match categorySlug with
    | Some (c :: s) => (c :: s, otherFiles)
    | Some [] | None =>
        (js "others",
         if existsb (λ f, bool_decide (OtherFile.slug f = fileSlug)) otherFiles
         then otherFiles
         else otherFiles ++
                [ {| OtherFile.slug := fileSlug; OtherFile.title := fileSlug |} ])
    end in
  let dirPath := path_join [DOCS_DIR; categorySlug] in
  let filePath := path_join [dirPath; fileSlug ++ js ".md"] in
  (otherFiles,
   {| dl_url := url; urlMdFile := urlMdFile; filePath := filePath;
      dirPath := dirPath |}).

(** ** Step 4: the index

    [readmeContent] is built by appending; [now] is
    [new Date().toUTCString()]. *)
Definition readme_header (now : jsstring) : jsstring :=
  (js "# Claude Code Mirror Docs" ++ LF ++ LF)
  ++ (js "_This repository is a mirror of the official [Claude Code](https://docs.anthropic.com/en/docs/claude-code/) documentation. It is updated automatically._" ++ LF ++ LF)
  ++ (js "**Last updated:** " ++ now ++ LF ++ LF ++ js "---" ++ LF ++ LF).

Definition category_link (category : Category.t) (file : FileRef.t) : jsstring :=
  js "- [" ++ FileRef.title file ++ js "](./" ++ DOCS_DIR ++ js "/"
  ++ Category.slug category ++ js "/" ++ FileRef.slug file ++ js ".md)" ++ LF.

Definition other_link (file : OtherFile.t) : jsstring :=
  js "- [" ++ OtherFile.title file ++ js "](./" ++ DOCS_DIR ++ js "/others/"
  ++ OtherFile.slug file ++ js ".md)" ++ LF.

Definition append_category (readmeContent : jsstring) (category : Category.t)
    : jsstring :=
  let readmeContent :=
    readmeContent ++ (js "## " ++ Category.title category ++ LF ++ LF) in
  let readmeContent :=
    foldl (λ content file, content ++ category_link category file)
      readmeContent (Category.files category) in
  readmeContent ++ LF.

Definition readme_content (now : jsstring) (navStructure : list Category.t)
    (otherFiles : list OtherFile.t) : jsstring :=
  let readmeContent := readme_header now in
  let readmeContent := foldl append_category readmeContent navStructure in
  if (0 <? length otherFiles)%nat then
    let readmeContent := readmeContent ++ (js "## Others" ++ LF ++ LF) in
    let readmeContent :=
      foldl (λ content file, content ++ other_link file) readmeContent otherFiles in
    readmeContent ++ LF
  else readmeContent.

(** ** The world outside and the effects

    Everything the script gets from outside is a field of [World]: the
    outcome of each file system call, the responses of the remote site, the
    order in which the event loop settles the downloads and the clock. *)
Record World := {
  rm_error : jsstring → option Error;
  mkdir_error : jsstring → option Error;
  write_error : jsstring → option Error;
  sitemap_response : result Sitemap;
  nav_response : result (list NavGroup);
  doc_response : jsstring → result jsstring;
  schedule : list Download → list Download;
  now : jsstring
}.

(** The effects in the order they happen. An awaited call is one event: the
    code goes on only when the call has settled. The progress messages of
    [console.log] that stand outside the download promises are not
    recorded. *)
Inductive event :=
  | Rm (path : jsstring)
  | Mkdir (path : jsstring)
  | HttpGet (url : jsstring)
  | WriteFile (path data : jsstring)
  | ConsoleLog (msg : jsstring)
  | ConsoleError (msg : jsstring)
  | FatalError (e : Error)
  | Exit (code : N).

(** The state of the process: the files on disk, by path, and the trace. *)
Record Proc := {
  fs : gmap jsstring jsstring;
  trace : list event
}.

Definition emit (e : event) (p : Proc) : Proc :=
  {| fs := fs p; trace := trace p ++ [e] |}.

(** An [async] function: it changes the process state and returns or
    throws. *)
Definition Async (A : Type) : Type := Proc → result A * Proc.

#[global] Instance Async_ret : MRet Async := λ A a p, (Ok a, p).
#[global] Instance Async_bind : MBind Async := λ A B f m p,
  match m p with
  | (Ok a, p') => f a p'
  | (Throw e, p') => (Throw e, p')
  end.

(** [path] itself or something below it. *)
Definition under (dir path : jsstring) : bool :=
  bool_decide (path = dir) || startsWith path (dir ++ [SLASH]).

(** [fs.rm(path, { recursive, force: true })]: a path that does not exist
    is no error. *)
Definition fs_rm (w : World) (path : jsstring) (recursive : bool) : Async unit :=
  λ p,
  match rm_error w path with
  | Some e => (Throw e, p)
  | None =>
      (Ok (), emit (Rm path)
                {| fs := if recursive
                         then filter (λ kv, under path kv.1 = false) (fs p)
                         else delete path (fs p);
                   trace := trace p |})
  end.

(** [fs.mkdir(path, { recursive: true })]; directories hold no content, so
    the files stay as they are. *)
Definition fs_mkdir (w : World) (path : jsstring) : Async unit := λ p,
  match mkdir_error w path with
  | Some e => (Throw e, p)
  | None => (Ok (), emit (Mkdir path) p)
  end.

(** [fs.writeFile(path, data)] *)
Definition fs_writeFile (w : World) (path data : jsstring) : Async unit := λ p,
  match write_error w path with
  | Some e => (Throw e, p)
  | None =>
      (Ok (), emit (WriteFile path data)
                {| fs := <[path := data]> (fs p); trace := trace p |})
  end.

(** [axios.get(url)], with the response the world gives. *)
Definition axios_get {A} (url : jsstring) (response : result A) : Async A :=
  λ p, (response, emit (HttpGet url) p).

(** The call of [axios.get(url)] alone: the request goes out, the promise
    is pending. *)
Definition axios_issue (url : jsstring) : Async unit :=
  λ p, (Ok (), emit (HttpGet url) p).

Definition console_log (msg : jsstring) : Async unit :=
  λ p, (Ok (), emit (ConsoleLog msg) p).

Definition console_error (msg : jsstring) : Async unit :=
  λ p, (Ok (), emit (ConsoleError msg) p).

Definition lift {A} (r : result A) : Async A := λ p, (r, p).

(** [cleanPreviousBuild] *)
Definition cleanPreviousBuild (w : World) : Async unit :=
  fs_rm w DOCS_DIR true ;;
  fs_rm w ROOT_README_PATH false ;;
  fs_mkdir w DOCS_DIR.

(** [fetchAllUrlsFromSitemap] *)
Definition fetchAllUrlsFromSitemap (w : World) : Async (list jsstring) :=
  parsed ← axios_get SITEMAP_URL (sitemap_response w);
  lift (sitemap_urls parsed).

(** [fetchNavigationStructure] *)
Definition fetchNavigationStructure (w : World) : Async (list Category.t) :=
  page ← axios_get NAV_PAGE_URL (nav_response w);
  mret (navigation_structure page).

(** The state of the [for] loop of [downloadAndSaveDocs]. *)
Record LoopState := {
  otherFiles : list OtherFile.t;
  downloadPromises : list Download
}.

(** One iteration: categorize, [await fs.mkdir(dirPath)], then call
    [axios.get(urlMdFile)] and push the promise. The request is issued in
    the iteration; its response is handled when the promise settles. *)
Definition loop_body (w : World) (navStructure : list Category.t)
    (st : LoopState) (url : jsstring) : Async LoopState :=
  let '(others, d) := categorize navStructure (otherFiles st) url in
  fs_mkdir w (dirPath d) ;;
  axios_issue (urlMdFile d) ;;
  mret {| otherFiles := others;
          downloadPromises := downloadPromises st ++ [d] |}.

(** [for (const x of l) { st = await body(st, x) }] *)
Fixpoint for_of {A S} (body : S → A → Async S) (l : list A) (st : S) : Async S :=
  match l with
  | [] => mret st
  | x :: rest => st' ← body st x; for_of body rest st'
  end.

Definition failed_to_download (url : jsstring) (err : Error) : jsstring :=
  js "   ! Failed to download " ++ url ++ js ": " ++ message err.

(** The rest of one promise:
    [.then((response) => fs.writeFile(filePath, response.data, 'utf-8'))
     .then(() => console.log(...)).catch((err) => console.error(...))].
    [axios] and [fs] reject with [Error] objects, so the handler can read
    [err.message] and the promise never rejects. *)
Definition settle (w : World) (d : Download) : Async unit := λ p,
  match doc_response w (urlMdFile d) with
  | Throw err => console_error (failed_to_download (dl_url d) err) p
  | Ok data =>
      match fs_writeFile w (filePath d) data p with
      | (Ok _, p') => console_log (js "   -> " ++ filePath d) p'
      | (Throw err, p') => console_error (failed_to_download (dl_url d) err) p'
      end
  end.

(** [downloadAndSaveDocs]. The promises settle in the order the event loop
    picks, [schedule w]: any order of the downloads is possible. A promise
    that settles while the loop still awaits a later [mkdir] is listed after
    the loop here, where the source has its write and its message between
    the effects of the loop; this changes neither the order of the [mkdir]
    calls and the requests among themselves nor the order of the writes
    among themselves, and the properties below speak of the order of events
    within these only. When a [mkdir] of the loop throws, the promises
    issued so far are left pending: the process is about to exit, and what
    they still write before it does is not part of the model. *)
Definition downloadAndSaveDocs (w : World) (allUrls : list jsstring)
    (navStructure : list Category.t) : Async (list OtherFile.t) :=
  st ← for_of (loop_body w navStructure) allUrls
         {| otherFiles := []; downloadPromises := [] |};
  for_of (λ _ d, settle w d) (schedule w (downloadPromises st)) () ;;
  mret (otherFiles st).

(** [generateReadme] *)
Definition generateReadme (w : World) (navStructure : list Category.t)
    (otherFiles : list OtherFile.t) : Async unit :=
  fs_writeFile w ROOT_README_PATH (readme_content (now w) navStructure otherFiles).

(** [main] *)
Definition main (w : World) : Async unit :=
  cleanPreviousBuild w ;;
  allUrls ← fetchAllUrlsFromSitemap w;
  structure ← fetchNavigationStructure w;
  otherFiles ← downloadAndSaveDocs w allUrls structure;
  generateReadme w structure otherFiles.

(** [main().catch((error) => { console.error(..., error); process.exit(1) })]:
    the exit status and the final state of a run that starts in [p]. *)
Definition run (w : World) (p : Proc) : N * Proc :=
  match main w p with
  | (Ok _, p') => (0, emit (Exit 0) p')
  | (Throw e, p') => (1, emit (Exit 1) (emit (FatalError e) p'))
  end.

(** ** Words of the specification

    The values of the [<url><loc>] elements of a sitemap, one per [<url>],
    in document order. *)
Definition loc_values (entries : list UrlEntry) (locs : list jsstring) : Prop :=
  Forall2 (λ e v, head (loc e) = Some (XText v)) entries locs.

(** How often [v] occurs in [l]. *)
Definition occurrences (v : jsstring) (l : list jsstring) : nat :=
  count_occ (list_eq_dec (A:=N)) l v.

(** The section of the index for one category, and the one for the
    others. *)
Definition category_section (category : Category.t) : jsstring :=
  js "## " ++ Category.title category ++ LF ++ LF
  ++ (Category.files category ≫= category_link category) ++ LF.

Definition others_section (otherFiles : list OtherFile.t) : jsstring :=
  match otherFiles with
  | [] => []
  | _ => js "## Others" ++ LF ++ LF ++ (otherFiles ≫= other_link) ++ LF
  end.

(** The category a sidebar group stands for, when it has a title. *)
Definition group_title (g : NavGroup) : jsstring :=
  trim (mjoin (sidebar_titles g)).

Definition link_file (a : Anchor) : option FileRef.t :=
  match attr_href a with
  | Some (c :: h) =>
      Some {| FileRef.slug := basename (c :: h);
              FileRef.title := trim (anchor_text a);
              FileRef.href := BASE_URL ++ c :: h |}
  | _ => None
  end.

Definition group_category (g : NavGroup) : Category.t :=
  {| Category.title := group_title g;
     Category.slug := slugify (group_title g);
     Category.files := omap link_file (sidebar_links g) |}.

Definition has_title (g : NavGroup) : bool :=
  negb (bool_decide (group_title g = [])).

(** The same world with another navigation page. *)
Definition with_nav (w : World) (page : list NavGroup) : World :=
  {| rm_error := rm_error w; mkdir_error := mkdir_error w;
     write_error := write_error w; sitemap_response := sitemap_response w;
     nav_response := Ok page; doc_response := doc_response w;
     schedule := schedule w; now := now w |}.

(** What the loop of [downloadAndSaveDocs] computes when no [mkdir] fails:
    the others collected after [otherFiles] and the downloads, one per URL,
    in the order of the URLs. *)
Fixpoint plan (navStructure : list Category.t) (otherFiles : list OtherFile.t)
    (urls : list jsstring) : list OtherFile.t * list Download :=
  match urls with
  | [] => (otherFiles, [])
  | url :: rest =>
      let '(others, d) := categorize navStructure otherFiles url in
      let '(others', ds) := plan navStructure others rest in
      (others', d :: ds)
  end.

(** The effects the loop issues for these downloads. *)
Definition loop_effects (ds : list Download) : list event :=
  ds ≫= λ d, [Mkdir (dirPath d); HttpGet (urlMdFile d)].

(** How one download ends: with the error of the request or of the write,
    or with the body that was written. *)
Definition download_outcome (w : World) (d : Download) : Error + jsstring :=
  match doc_response w (urlMdFile d) with
  | Throw err => inl err
  | Ok data =>
      match write_error w (filePath d) with
      | Some err => inl err
      | None => inr data
      end
  end.

Definition settle_events (w : World) (d : Download) : list event :=
  match download_outcome w d with
  | inl err => [ConsoleError (failed_to_download (dl_url d) err)]
  | inr data =>
      [WriteFile (filePath d) data; ConsoleLog (js "   -> " ++ filePath d)]
  end.

Definition settle_fs (w : World) (m : gmap jsstring jsstring) (d : Download)
    : gmap jsstring jsstring :=
  match download_outcome w d with
  | inl _ => m
  | inr data => <[filePath d := data]> m
  end.

(** The files a run starts from once [cleanPreviousBuild] is done. *)
Definition cleaned (m : gmap jsstring jsstring) : gmap jsstring jsstring :=
  delete ROOT_README_PATH (filter (λ kv, under DOCS_DIR kv.1 = false) m).

(** Every step of [main] outside the download promises succeeds: the
    sitemap gives [urls], the navigation page is [page]. *)
Definition orchestration_succeeds (w : World) (urls : list jsstring)
    (page : list NavGroup) : Prop :=
  rm_error w DOCS_DIR = None
  ∧ rm_error w ROOT_README_PATH = None
  ∧ mkdir_error w DOCS_DIR = None
  ∧ (∃ parsed, sitemap_response w = Ok parsed ∧ sitemap_urls parsed = Ok urls)
  ∧ nav_response w = Ok page
  ∧ Forall (λ d, mkdir_error w (dirPath d) = None)
      (plan (navigation_structure page) [] urls).2
  ∧ write_error w ROOT_README_PATH = None.

(** The state [main] ends in then, and the one of the process. *)
Definition main_state (w : World) (urls : list jsstring)
    (page : list NavGroup) (p : Proc) : Proc :=
  let nav := navigation_structure page in
  let '(others, ds) := plan nav [] urls in
  let readme := readme_content (now w) nav others in
  {| fs := <[ROOT_README_PATH := readme]>
             (foldl (settle_fs w) (cleaned (fs p)) (schedule w ds));
     trace := trace p
              ++ [Rm DOCS_DIR; Rm ROOT_README_PATH; Mkdir DOCS_DIR;
                  HttpGet SITEMAP_URL; HttpGet NAV_PAGE_URL]
              ++ loop_effects ds
              ++ (schedule w ds ≫= settle_events w)
              ++ [WriteFile ROOT_README_PATH readme] |}.

Definition final_state (w : World) (urls : list jsstring)
    (page : list NavGroup) (p : Proc) : Proc :=
  emit (Exit 0) (main_state w urls page p).

(** ** Sample inputs *)

Definition fresh : Proc := {| fs := ∅; trace := [] |}.

Definition overview_url : jsstring := URL_PREFIX ++ js "overview".
Definition quickstart_url : jsstring := URL_PREFIX ++ js "quickstart".

Definition sitemap_of (locs : list jsstring) : Sitemap :=
  {| urlset_url := Some ((λ v, {| loc := [XText v] |}) <$> locs) |}.

Definition getting_started : NavGroup :=
  {| sidebar_titles := [js "Getting started"];
     sidebar_links :=
       [ {| attr_href := Some (js "/en/docs/claude-code/overview");
            anchor_text := js "Overview" |};
         {| attr_href := Some (js "/en/docs/claude-code/quickstart");
            anchor_text := js "Quickstart" |} ] |}.

(** A site that serves the sitemap and the navigation page and then
    refuses every document; the last request is answered first. *)
Definition refusing_world : World :=
  {| rm_error := λ _, None;
     mkdir_error := λ _, None;
     write_error := λ _, None;
     sitemap_response := Ok (sitemap_of [overview_url; js "https://docs.anthropic.com/en/api/messages"; quickstart_url]);
     nav_response := Ok [getting_started];
     doc_response := λ _, Throw {| message := js "Request failed with status code 503" |};
     schedule := reverse;
     now := js "Thu, 14 Aug 2025 07:56:03 GMT" |}.

(** A site that serves every document; the requests are answered in the
    order they were sent. *)
Definition serving_world : World :=
  {| rm_error := λ _, None;
     mkdir_error := λ _, None;
     write_error := λ _, None;
     sitemap_response := Ok (sitemap_of [overview_url; quickstart_url]);
     nav_response := Ok [getting_started];
     doc_response := λ url, Ok (js "# " ++ url);
     schedule := λ ds, ds;
     now := js "Thu, 14 Aug 2025 07:56:03 GMT" |}.

(** No download request is issued before the last [mkdir]. *)
Definition downloads_after_all_mkdirs (evs : list event) : Prop :=
  ∀ (i j : nat) url dir,
    evs !! i = Some (HttpGet url) → evs !! j = Some (Mkdir dir) → (j < i)%nat.

Definition is_mkdir_or_get (e : event) : bool :=
  match e with
  | Mkdir _ | HttpGet _ => true
  | _ => false
  end.

(** The elements of [l] without those that occur earlier in [l] or in
    [seen]. *)
Fixpoint first_occurrences_from (seen l : list jsstring) : list jsstring :=
  match l with
  | [] => []
  | x :: rest =>
      if bool_decide (x ∈ seen) then first_occurrences_from seen rest
      else x :: first_occurrences_from (seen ++ [x]) rest
  end.

Definition first_occurrences (l : list jsstring) : list jsstring :=
  first_occurrences_from [] l.

(** The record of the others for a file name. *)
Definition other_file (fileSlug : jsstring) : OtherFile.t :=
  {| OtherFile.slug := fileSlug; OtherFile.title := fileSlug |}.







(** A path segment that [normalize] keeps as it is. *)
Definition plain_segment (s : jsstring) : Prop :=
  s ≠ [] ∧ (SLASH ∉ s) ∧ s ≠ [DOT] ∧ s ≠ [DOT; DOT].

(** A navigation page whose only heading has no ASCII letter or digit
    (U+306F U+3058 U+3081 U+306B), and one where the same link comes again
    under an English heading. *)
Definition hajimeni : NavGroup :=
  {| sidebar_titles := [[12399; 12376; 12417; 12395]];
     sidebar_links :=
       [ {| attr_href := Some (js "/en/docs/claude-code/overview");
            anchor_text := js "Overview" |} ] |}.

Definition hajimeni_category : Category.t :=
  {| Category.title := [12399; 12376; 12417; 12395];
     Category.slug := [];
     Category.files :=
       [ {| FileRef.slug := js "overview"; FileRef.title := js "Overview";
            FileRef.href := overview_url |} ] |}.

(** The file list of [category] contains a FileRef whose href is [url]. *)
Definition lists_url (url : jsstring) (category : Category.t) : Prop :=
  ∃ file, file ∈ Category.files category ∧ FileRef.href file = url.

#[global] Instance lists_url_dec url category : Decision (lists_url url category).
Proof.
  refine (cast_if (decide (Exists (λ file, FileRef.href file = url)
                             (Category.files category))));
    unfold lists_url; by rewrite <- Exists_exists.
Defined.

(** The URL matches no navigation href. *)
Definition unlisted (navStructure : list Category.t) (url : jsstring) : Prop :=
  Forall (λ category, ¬ lists_url url category) navStructure.

#[global] Instance unlisted_dec navStructure url :
  Decision (unlisted navStructure url).
Proof. unfold unlisted. apply _. Defined.

(** The others in the words of the specification: one record for each file
    name of the URLs that match no navigation href, in the order of the
    first occurrences. *)
Definition others_of_unlisted (navStructure : list Category.t)
    (urls : list jsstring) : list OtherFile.t :=
  other_file <$> first_occurrences (basename <$> filter (unlisted navStructure) urls).

(** The directory the categorizer picks: the slug the scan found, when it is
    not empty, and [others] in every other case. *)
Definition bucket (url : jsstring) (navStructure : list Category.t) : jsstring :=
  match scan_categories url navStructure with
  | Some (c :: s) => c :: s
  | Some [] | None => js "others"
  end.

(** ** Tactics

    Comparisons of code units, as propositions and by cases. *)
Ltac bool_prop H :=
  rewrite ?orb_true_iff, ?andb_true_iff, ?N.leb_le, ?N.eqb_eq in H.

Ltac unit_cases :=
  repeat (match goal with
          | |- context [N.leb ?a ?b] => destruct (N.leb_spec a b)
          | |- context [N.eqb ?a ?b] => destruct (N.eqb_spec a b)
          end; simpl; try done; try lia).

(** Literals are evaluated and the appends are put in one shape. *)
Ltac js_norm :=
  repeat match goal with
    | |- context [js ?s] =>
        let v := eval vm_compute in (js s) in change (js s) with v
    end;
  repeat (progress (rewrite <- ?app_assoc; cbn [app])).

(** ** Reasoning about [async] functions

    [m], started in a state with [P], ends in a state with [Q a] when it
    returns [a] and in a state with [E] when it throws. *)
Definition hoare {A} (P : Proc → Prop) (m : Async A)
    (Q : A → Proc → Prop) (E : Proc → Prop) : Prop :=
  ∀ p, P p →
    match m p with
    | (Ok a, p') => Q a p'
    | (Throw _, p') => E p'
    end.

(** The file at [path] is [v], or is missing when [v] is [None]. *)
Definition holds (path : jsstring) (v : option jsstring) (p : Proc) : Prop :=
  fs p !! path = v.

(** A path that is neither the index nor in the output directory. *)
Definition outside_output (path : jsstring) : Prop :=
  under DOCS_DIR path = false ∧ path ≠ ROOT_README_PATH.

(** The URLs of the requests of a trace, in the order they were sent. *)
Definition requests (evs : list event) : list jsstring :=
  omap (λ e, match e with HttpGet url => Some url | _ => None end) evs.

(** The same world with other answers to the document requests. *)
Definition with_docs (w : World) (responses : jsstring → result jsstring)
    : World :=
  {| rm_error := rm_error w; mkdir_error := mkdir_error w;
     write_error := write_error w; sitemap_response := sitemap_response w;
     nav_response := nav_response w; doc_response := responses;
     schedule := schedule w; now := now w |}.

(** The same world with another answer to the sitemap request, and with
    another answer to the request for the navigation page. *)
Definition with_sitemap_response (w : World) (r : result Sitemap) : World :=
  {| rm_error := rm_error w; mkdir_error := mkdir_error w;
     write_error := write_error w; sitemap_response := r;
     nav_response := nav_response w; doc_response := doc_response w;
     schedule := schedule w; now := now w |}.

Definition with_nav_response (w : World) (r : result (list NavGroup)) : World :=
  {| rm_error := rm_error w; mkdir_error := mkdir_error w;
     write_error := write_error w; sitemap_response := sitemap_response w;
     nav_response := r; doc_response := doc_response w;
     schedule := schedule w; now := now w |}.

(** A disk that holds the mirror of an earlier run and a file of the
    repository. *)
Definition earlier_mirror : Proc :=
  {| fs := <[js "docs/getting-started/overview.md" := js "# old"]>
             (<[js "README.md" := js "# old index"]>
                (<[js "package.json" := js "{}"]> ∅));
     trace := [] |}.

(** [t] is made of the events of [issued] and of [settled], each list in
    its own order. *)
Inductive interleaving {A} : list A → list A → list A → Prop :=
  | interleaving_nil : interleaving [] [] []
  | interleaving_issued x issued settled t :
      interleaving issued settled t →
      interleaving (x :: issued) settled (x :: t)
  | interleaving_settled x issued settled t :
      interleaving issued settled t →
      interleaving issued (x :: settled) (x :: t).

(** * Properties *)

Example slugify_getting_started :
  slugify (js "Getting Started!") = js "getting-started".
Proof. reflexivity. Qed.

Example slugify_non_ascii_space :
  slugify ([65; 160; 8195; 66]) = js "a-b".
Proof. reflexivity. Qed.

Example slugify_empty_result : slugify (js "!!!") = [].
Proof. reflexivity. Qed.

(** ** Code units *)

Lemma slug_char_range c :
  is_slug_char c = true ↔ 97 ≤ c ≤ 122 ∨ 48 ≤ c ≤ 57 ∨ c = 45.
Proof. unfold is_slug_char, HYPHEN. split; [intros H; bool_prop H|unit_cases]; lia. Qed.

Lemma slug_char_not_whitespace c : is_slug_char c = true → is_whitespace c = false.
Proof. rewrite slug_char_range. intros H. unfold is_whitespace. unit_cases. Qed.

Lemma slug_char_lower c : is_slug_char c = true → lower_unit c = [c].
Proof. rewrite slug_char_range. intros H. unfold lower_unit. unit_cases. Qed.

Lemma slug_char_not_slash c : is_slug_char c = true → c ≠ SLASH.
Proof. rewrite slug_char_range. unfold SLASH. lia. Qed.

Lemma slug_char_not_dot c : is_slug_char c = true → c ≠ DOT.
Proof. rewrite slug_char_range. unfold DOT. lia. Qed.

(** ** The slug *)

Section slug.
Implicit Types (s t : jsstring) (bs : list (bool * jsstring)).

Lemma slugify_chars t : Forall (λ c, is_slug_char c = true) (slugify t).
  Proof.
    unfold slugify, strip_non_slug. apply Forall_forall. intros c Hc.
    apply list_elem_of_In, filter_In in Hc. tauto.
  Qed.

Lemma toLowerCase_slug s :
    Forall (λ c, is_slug_char c = true) s → toLowerCase s = s.
  Proof.
    unfold toLowerCase. induction 1 as [|c s Hc _ IH]; [done|].
    cbn [mbind list_bind]. change (foldr _ _ _) with (s ≫= lower_unit).
    rewrite IH. by rewrite (slug_char_lower c Hc).
  Qed.

Lemma replace_ws_slug s b :
    Forall (λ c, is_slug_char c = true) s → replace_ws_from b s = s.
  Proof.
    intros Hs. revert b. induction Hs as [|c s Hc _ IH]; intros b; [done|].
    simpl. rewrite (slug_char_not_whitespace c Hc). by rewrite IH.
  Qed.

Lemma strip_slug s :
    Forall (λ c, is_slug_char c = true) s → strip_non_slug s = s.
  Proof.
    unfold strip_non_slug. induction 1 as [|c s Hc _ IH]; [done|].
    simpl. by rewrite Hc, IH.
  Qed.

Lemma slugify_fixes_slugs s :
    Forall (λ c, is_slug_char c = true) s → slugify s = s.
  Proof.
    intros Hs. unfold slugify, replace_ws_runs.
    by rewrite toLowerCase_slug, replace_ws_slug, strip_slug.
  Qed.

  (** The scan against the decomposition into runs: outside a run it yields
      the image of every run, inside a run it has already written the
      hyphen of the run it is in. *)
Lemma replace_ws_from_blocks s :
    replace_ws_from false s = mjoin (hyphenate <$> ws_blocks s)
    ∧ replace_ws_from true s =
        match ws_blocks s with
        | (true, _) :: rest => mjoin (hyphenate <$> rest)
        | bs => mjoin (hyphenate <$> bs)
        end.
  Proof.
    induction s as [|c s [IHf IHt]]; [done|].
    simpl. rewrite IHf, IHt. clear IHf IHt.
    destruct (is_whitespace c) eqn:Hc, (ws_blocks s) as [|[[] b] rest];
      simpl; try done.
  Qed.

Lemma ws_blocks_runs s : maximal_runs s (ws_blocks s).
  Proof.
    unfold maximal_runs. induction s as [|c s (Hj & Hf & Ha)]; [done|].
    simpl. destruct (ws_blocks s) as [|[w b] rest] eqn:Hbs.
    - simpl in *. subst s. split_and!; [done| |done].
      repeat constructor; done.
    - destruct (Bool.eqb w (is_whitespace c)) eqn:Hw.
      + apply Bool.eqb_prop in Hw. simpl in *. subst s.
        inversion_clear Hf as [|?? [Hne Hb] Hrest].
        split_and!; [done| |done]. constructor; [|done].
        split; [done|]. constructor; [done|]. exact Hb.
      + apply Bool.eqb_false_iff in Hw. simpl in *. subst s.
        split_and!; [done| |congruence|done].
        constructor; [|done]. split; [done|]. by constructor.
  Qed.

Lemma slugify_refines_spec t : slugify t = slugify_spec t.
  Proof.
    unfold slugify, slugify_spec, strip_non_slug, replace_ws_runs.
    by rewrite (proj1 (replace_ws_from_blocks _)).
  Qed.
End slug.

(** C5. [slugify] lowercases its input, turns every maximal run of
    whitespace into one hyphen and deletes every code unit outside
    [a-z0-9-]; it is idempotent; and it maps "Getting Started!" to
    "getting-started". *)
Theorem slugify_runs_idempotent_example :
  (∀ t, maximal_runs (toLowerCase t) (ws_blocks (toLowerCase t))
        ∧ slugify t =
            List.filter is_slug_char
              (mjoin (hyphenate <$> ws_blocks (toLowerCase t))))
  ∧ (∀ t, Forall (λ c, is_slug_char c = true) (slugify t))
  ∧ (∀ t, slugify (slugify t) = slugify t)
  ∧ slugify (js "Getting Started!") = js "getting-started".
Proof.
  split; [|split; [|split]].
  - intros t. split; [apply ws_blocks_runs | apply slugify_refines_spec].
  - apply slugify_chars.
  - intros t. apply slugify_fixes_slugs, slugify_chars.
  - reflexivity.
Qed.

(** ** The sitemap *)

Lemma startsWith_prefix s p : startsWith s p = true ↔ p `prefix_of` s.
Proof.
  revert s. induction p as [|a p IH]; intros s; simpl.
  - split; [intros _; apply prefix_nil | done].
  - destruct s as [|b s].
    + split; [done|]. intros [k Hk]. discriminate Hk.
    + rewrite andb_true_iff, N.eqb_eq, IH. split.
      * intros [-> Hp]. by apply prefix_cons.
      * intros [k Hk]. simplify_eq/=. split; [done|]. by exists k.
Qed.

Lemma map_first_loc_values entries locs :
  loc_values entries locs → map_first_loc entries = Ok (XText <$> locs).
Proof.
  induction 1 as [|e v entries locs Hv _ IH]; [done|].
  simpl. unfold first_loc. destruct (loc e) as [|x more]; [done|].
  simpl in Hv. simplify_eq. by rewrite IH.
Qed.

Lemma filter_prefix_texts locs :
  filter_prefix (XText <$> locs)
  = Ok (List.filter (λ v, startsWith v URL_PREFIX) locs).
Proof.
  induction locs as [|v locs IH]; [done|].
  cbn [fmap list_fmap filter_prefix List.filter].
  change (list_fmap _ _ XText locs) with (XText <$> locs).
  rewrite IH. by destruct (startsWith v URL_PREFIX).
Qed.

Lemma filter_sublist_of {A} (f : A → bool) (l : list A) :
  sublist (List.filter f l) l.
Proof.
  induction l as [|x l IH]; simpl; [constructor|].
  destruct (f x); by constructor.
Qed.

Lemma occurrences_filter (f : jsstring → bool) v l :
  f v = true → occurrences v (List.filter f l) = occurrences v l.
Proof.
  intros Hv. unfold occurrences. induction l as [|x l IH]; [done|].
  simpl. destruct (list_eq_dec x v) as [->|Hne].
  - rewrite Hv. simpl. destruct (list_eq_dec v v); [|done]. by rewrite IH.
  - destruct (f x); [|done]. simpl. by destruct (list_eq_dec x v).
Qed.

(** C6. The output of the sitemap fetcher is the list of the [<url><loc>]
    values that start with [URL_PREFIX]: in the order of the sitemap, with
    every occurrence of a value that has the prefix and without any value
    that lacks it. *)
Theorem fetchAllUrlsFromSitemap_prefixed_locs
    (w : World) (p : Proc) (entries : list UrlEntry) (locs : list jsstring) :
  sitemap_response w = Ok {| urlset_url := Some entries |} →
  loc_values entries locs →
  let out := List.filter (λ v, startsWith v URL_PREFIX) locs in
  (fetchAllUrlsFromSitemap w p).1 = Ok out
  ∧ sublist out locs
  ∧ (∀ v, v ∈ out ↔ v ∈ locs ∧ URL_PREFIX `prefix_of` v)
  ∧ (∀ v, URL_PREFIX `prefix_of` v → occurrences v out = occurrences v locs).
Proof.
  intros Hw Hlocs out. split_and!.
  - unfold fetchAllUrlsFromSitemap, axios_get, lift, mbind, Async_bind.
    rewrite Hw. simpl. unfold sitemap_urls. simpl.
    rewrite (map_first_loc_values _ _ Hlocs). apply filter_prefix_texts.
  - apply filter_sublist_of.
  - intros v. unfold out. rewrite !list_elem_of_In, filter_In.
    by rewrite startsWith_prefix.
  - intros v Hv. apply occurrences_filter. by apply startsWith_prefix.
Qed.

(** A sitemap with a foreign URL between two copies of the same page. *)
Lemma fetchAllUrlsFromSitemap_prefixed_locs_witness :
  let w := {| rm_error := λ _, None; mkdir_error := λ _, None;
              write_error := λ _, None;
              sitemap_response :=
                Ok {| urlset_url := Some
                  [ {| loc := [XText (URL_PREFIX ++ js "overview")] |};
                    {| loc := [XText (js "https://docs.anthropic.com/en/api/x")] |};
                    {| loc := [XText (URL_PREFIX ++ js "overview")] |} ] |};
              nav_response := Ok [];
              doc_response := λ _, Ok [];
              schedule := λ l, l;
              now := [] |} in
  (fetchAllUrlsFromSitemap w {| fs := ∅; trace := [] |}).1
  = Ok [URL_PREFIX ++ js "overview"; URL_PREFIX ++ js "overview"].
Proof.
  intros w.
  refine (proj1 (fetchAllUrlsFromSitemap_prefixed_locs w _ _
    [URL_PREFIX ++ js "overview"; js "https://docs.anthropic.com/en/api/x";
     URL_PREFIX ++ js "overview"] _ _)).
  - reflexivity.
  - repeat constructor.
Defined.

(** ** The index *)

Lemma foldl_append {A} (f : A → jsstring) (l : list A) (init : jsstring) :
  foldl (λ content x, content ++ f x) init l = init ++ (l ≫= f).
Proof.
  revert init. induction l as [|x l IH]; intros init; simpl.
  - by rewrite app_nil_r.
  - rewrite IH. by rewrite <- app_assoc.
Qed.

Lemma append_category_section content category :
  append_category content category = content ++ category_section category.
Proof.
  unfold append_category, category_section.
  rewrite foldl_append. by rewrite <- !app_assoc.
Qed.

Lemma foldl_append_category nav content :
  foldl append_category content nav = content ++ (nav ≫= category_section).
Proof.
  revert content. induction nav as [|c nav IH]; intros content; simpl.
  - by rewrite app_nil_r.
  - rewrite IH, append_category_section. by rewrite <- app_assoc.
Qed.

Lemma readme_content_eq now nav others :
  readme_content now nav others
  = readme_header now ++ (nav ≫= category_section) ++ others_section others.
Proof.
  unfold readme_content. rewrite foldl_append_category.
  destruct others as [|o others].
  - simpl. by rewrite !app_nil_r.
  - cbn [length Nat.ltb Nat.leb]. rewrite foldl_append.
    unfold others_section. by rewrite <- !app_assoc.
Qed.

(** C7. The index is the header, then one section per category in
    navigation order: a level-2 heading with the title, then one link per
    file in list order, with the title of the file as text and
    [./docs/<category-slug>/<file-slug>.md] as target. The section of the
    others, built the same way with [./docs/others/<slug>.md], ends the
    document exactly when there is an other file. *)
Theorem readme_content_categories_then_others
    (date : jsstring) (nav : list Category.t) (others : list OtherFile.t) :
  readme_content date nav others
  = readme_header date ++ (nav ≫= category_section) ++ others_section others
  ∧ (∀ c, category_section c
          = js "## " ++ Category.title c ++ LF ++ LF
            ++ (Category.files c ≫= category_link c) ++ LF)
  ∧ (∀ c f, category_link c f
            = js "- [" ++ FileRef.title f ++ js "]("
              ++ (js "./docs/" ++ Category.slug c ++ js "/" ++ FileRef.slug f
                  ++ js ".md")
              ++ js ")" ++ LF)
  ∧ (others_section others
     = if bool_decide (others = []) then []
       else js "## Others" ++ LF ++ LF ++ (others ≫= other_link) ++ LF)
  ∧ (∀ o, other_link o
          = js "- [" ++ OtherFile.title o ++ js "]("
            ++ (js "./docs/others/" ++ OtherFile.slug o ++ js ".md")
            ++ js ")" ++ LF)
  ∧ (others_section others = [] ↔ others = [])
  ∧ (∀ w p, fs (generateReadme w nav others p).2 !! ROOT_README_PATH
            = match write_error w ROOT_README_PATH with
              | None => Some (readme_content (now w) nav others)
              | Some _ => fs p !! ROOT_README_PATH
              end).
Proof.
  split_and!.
  - apply readme_content_eq.
  - done.
  - intros c f. unfold category_link, DOCS_DIR, LF. by js_norm.
  - by destruct others.
  - intros o. unfold other_link, DOCS_DIR, LF. by js_norm.
  - by destruct others.
  - intros w p. unfold generateReadme, fs_writeFile.
    destruct (write_error w ROOT_README_PATH); [done|].
    simpl. by rewrite lookup_insert_eq.
Qed.

(** ** The navigation structure *)

Lemma foldl_push_link links files :
  foldl push_link files links = files ++ omap link_file links.
Proof.
  revert files. induction links as [|a links IH]; intros files; simpl.
  - by rewrite app_nil_r.
  - rewrite IH. unfold push_link, link_file.
    destruct (attr_href a) as [[|c h]|]; simpl; [done| |done].
    by rewrite <- app_assoc.
Qed.

Lemma push_category_group structure g :
  push_category structure g
  = structure ++ (if has_title g then [group_category g] else []).
Proof.
  unfold push_category, has_title, group_category.
  pose proof (foldl_push_link (sidebar_links g) []) as Hl. simpl in Hl.
  fold (group_title g). destruct (group_title g) eqn:Ht; simpl.
  - by rewrite app_nil_r.
  - by rewrite Hl.
Qed.

Lemma foldl_push_category page structure :
  foldl push_category structure page
  = structure ++ (group_category <$> List.filter has_title page).
Proof.
  revert structure. induction page as [|g page IH]; intros structure; simpl.
  - by rewrite app_nil_r.
  - rewrite IH, push_category_group. destruct (has_title g); simpl.
    + by rewrite <- app_assoc.
    + by rewrite app_nil_r.
Qed.

Lemma navigation_structure_titled page :
  navigation_structure page = group_category <$> List.filter has_title page.
Proof. apply foldl_push_category. Qed.

Lemma navigation_structure_app page1 page2 :
  navigation_structure (page1 ++ page2)
  = navigation_structure page1 ++ navigation_structure page2.
Proof.
  rewrite !navigation_structure_titled, List.filter_app. apply fmap_app.
Qed.

(** A run reads the navigation page only through its structure. *)
Lemma run_with_nav w page1 page2 p :
  navigation_structure page1 = navigation_structure page2 →
  run (with_nav w page1) p = run (with_nav w page2) p.
Proof.
  intros Hnav. unfold run. f_equal.
  assert (main (with_nav w page1) p = main (with_nav w page2) p) as ->; [|done].
  unfold main, fetchNavigationStructure, axios_get, mbind, Async_bind, mret,
    Async_ret.
  change (cleanPreviousBuild (with_nav w page1)) with (cleanPreviousBuild w).
  change (cleanPreviousBuild (with_nav w page2)) with (cleanPreviousBuild w).
  destruct (cleanPreviousBuild w p) as [[[]|e] p1]; [|done].
  change (fetchAllUrlsFromSitemap (with_nav w page1))
    with (fetchAllUrlsFromSitemap w).
  change (fetchAllUrlsFromSitemap (with_nav w page2))
    with (fetchAllUrlsFromSitemap w).
  destruct (fetchAllUrlsFromSitemap w p1) as [[allUrls|e] p2]; [|done].
  cbn [nav_response with_nav]. rewrite Hnav. reflexivity.
Qed.

(** C9. A sidebar group whose heading text is empty or missing after
    trimming yields no category: the structure is the one of the page
    without the group, and so is the whole run (directories, files, index). *)
Theorem untitled_group_contributes_nothing
    (before after : list NavGroup) (g : NavGroup) :
  trim (mjoin (sidebar_titles g)) = [] →
  navigation_structure (before ++ g :: after)
  = navigation_structure (before ++ after)
  ∧ navigation_structure (before ++ g :: after)
    = navigation_structure before ++ navigation_structure after
  ∧ (∀ w p, run (with_nav w (before ++ g :: after)) p
            = run (with_nav w (before ++ after)) p).
Proof.
  intros Hg.
  assert (navigation_structure (before ++ g :: after)
          = navigation_structure before ++ navigation_structure after) as Heq.
  { rewrite navigation_structure_app. f_equal.
    rewrite !navigation_structure_titled. simpl.
    unfold has_title at 1, group_title. by rewrite Hg. }
  split_and!.
  - by rewrite Heq, navigation_structure_app.
  - done.
  - intros w p. apply run_with_nav. by rewrite Heq, navigation_structure_app.
Qed.

(** A group whose heading is only spaces and a line feed. *)
Lemma untitled_group_contributes_nothing_witness :
  let titled :=
    {| sidebar_titles := [js "Getting started"];
       sidebar_links :=
         [ {| attr_href := Some (js "/en/docs/claude-code/overview");
              anchor_text := js "Overview" |} ] |} in
  let untitled :=
    {| sidebar_titles := [js "  "; LF];
       sidebar_links :=
         [ {| attr_href := Some (js "/en/docs/claude-code/hooks");
              anchor_text := js "Hooks" |} ] |} in
  navigation_structure ([titled] ++ untitled :: [])
  = navigation_structure ([titled] ++ []).
Proof.
  intros titled untitled.
  exact (proj1 (untitled_group_contributes_nothing [titled] [] untitled
                  eq_refl)).
Defined.

(** ** Paths *)

Section paths.
Implicit Types (s seg : jsstring) (segs : list jsstring).

Lemma split_slash_plain s : SLASH ∉ s → split_slash s = [s].
  Proof.
    induction s as [|c s IH]; intros Hs; [done|].
    apply not_elem_of_cons in Hs as [Hc Hs]. simpl.
    destruct (N.eqb_spec c SLASH) as [->|_]; [done|]. by rewrite IH.
  Qed.

Lemma split_slash_app s1 s2 :
    SLASH ∉ s1 → split_slash (s1 ++ SLASH :: s2) = s1 :: split_slash s2.
  Proof.
    induction s1 as [|c s1 IH]; intros Hs; [done|].
    apply not_elem_of_cons in Hs as [Hc Hs]. simpl.
    destruct (N.eqb_spec c SLASH) as [->|_]; [done|]. by rewrite IH.
  Qed.

Lemma split_join_slash segs :
    segs ≠ [] → Forall plain_segment segs →
    split_slash (join_slash segs) = segs.
  Proof.
    intros Hne Hsegs. induction Hsegs as [|seg segs (_ & Hs & _) Hsegs IH]; [done|].
    destruct segs as [|seg' segs]; [by apply split_slash_plain|].
    change (join_slash (seg :: seg' :: segs))
      with (seg ++ SLASH :: join_slash (seg' :: segs)).
    rewrite split_slash_app by done. by rewrite IH.
  Qed.

Lemma normalize_step_plain b res seg :
    plain_segment seg → normalize_step b res seg = seg :: res.
  Proof.
    intros (H1 & _ & H2 & H3). unfold normalize_step.
    by rewrite !bool_decide_eq_false_2.
  Qed.

Lemma foldl_normalize_step_plain b res segs :
    Forall plain_segment segs →
    foldl (normalize_step b) res segs = reverse segs ++ res.
  Proof.
    intros Hsegs. revert res.
    induction Hsegs as [|seg segs Hseg _ IH]; intros res; [done|].
    simpl. rewrite normalize_step_plain by done.
    rewrite IH, reverse_cons. by rewrite <- app_assoc.
  Qed.

Lemma join_slash_head segs seg :
    plain_segment seg →
    ∃ c rest, join_slash (seg :: segs) = c :: rest ∧ c ≠ SLASH.
  Proof.
    intros (Hne & Hs & _). destruct seg as [|c seg]; [done|].
    apply not_elem_of_cons in Hs as [Hc _].
    exists c. destruct segs; simpl; eauto.
  Qed.

Lemma join_slash_last segs :
    segs ≠ [] → Forall plain_segment segs →
    ∃ c, last (join_slash segs) = Some c ∧ c ≠ SLASH.
  Proof.
    intros Hne Hsegs.
    induction Hsegs as [|seg segs (Hn & Hs & _) Hsegs IH]; [done|].
    destruct segs as [|seg' segs].
    - simpl. destruct (last seg) as [c|] eqn:Hl.
      + exists c. split; [done|]. intros ->. apply Hs.
        apply last_Some in Hl as [l' ->]. apply elem_of_app. right.
        apply list_elem_of_here.
      + by apply last_None in Hl.
    - destruct IH as (c & Hc & Hne'); [done|]. exists c. split; [|done].
      change (join_slash (seg :: seg' :: segs))
        with (seg ++ SLASH :: join_slash (seg' :: segs)).
      rewrite last_app, last_cons, Hc. done.
  Qed.

Lemma normalizeString_plain segs b :
    segs ≠ [] → Forall plain_segment segs →
    normalizeString (join_slash segs) b = join_slash segs.
  Proof.
    intros Hne Hsegs. unfold normalizeString.
    rewrite split_join_slash, foldl_normalize_step_plain by done.
    by rewrite app_nil_r, reverse_involutive.
  Qed.

  (** [normalize] keeps a relative path of plain segments. *)
Lemma normalize_plain segs :
    segs ≠ [] → Forall plain_segment segs →
    normalize (join_slash segs) = join_slash segs.
  Proof.
    intros Hne Hsegs.
    destruct (join_slash_last segs Hne Hsegs) as (d & Hlast & Hd).
    pose proof (λ b, normalizeString_plain segs b Hne Hsegs) as Hns.
    destruct segs as [|seg segs]; [done|].
    inversion Hsegs as [|?? Hseg _]; subst.
    destruct (join_slash_head segs seg Hseg) as (c & rest & Hjoin & Hc).
    rewrite Hjoin in Hlast, Hns |- *. unfold normalize.
    rewrite Hlast, Hns.
    destruct (N.eqb_spec c SLASH) as [?|_]; [done|].
    destruct (N.eqb_spec d SLASH) as [?|_]; [done|].
    simpl. by rewrite app_nil_r.
  Qed.

Lemma path_join_plain segs seg :
    segs ≠ [] → Forall plain_segment segs → plain_segment seg →
    path_join [join_slash segs; seg] = join_slash (segs ++ [seg]).
  Proof.
    intros Hne Hsegs Hseg. unfold path_join.
    assert (join_slash segs ≠ []) as Hj.
    { destruct segs as [|s0 segs]; [done|].
      inversion Hsegs as [|?? Hs0 _]; subst.
      by destruct (join_slash_head segs s0 Hs0) as (c & rest & -> & _). }
    assert (seg ≠ []) as Hs by apply Hseg.
    cbn [List.filter]. rewrite !bool_decide_eq_false_2 by done. cbn [negb].
    assert (join_slash [join_slash segs; seg] = join_slash (segs ++ [seg])) as ->.
    { clear Hj Hsegs. induction segs as [|s0 segs IH]; [done|].
      destruct segs as [|s1 segs]; [done|].
      change (join_slash ((s0 :: s1 :: segs) ++ [seg]))
        with (s0 ++ SLASH :: join_slash ((s1 :: segs) ++ [seg])).
      rewrite <- IH by done. simpl. by rewrite <- app_assoc. }
    apply normalize_plain.
    - by destruct segs.
    - apply Forall_app. split; [done|]. by constructor.
  Qed.

Lemma take_to_slash_no_slash s : SLASH ∉ take_to_slash s.
  Proof.
    induction s as [|c s IH]; simpl; [apply not_elem_of_nil|].
    destruct (N.eqb_spec c SLASH) as [->|Hc]; [apply not_elem_of_nil|].
    by apply not_elem_of_cons.
  Qed.

Lemma basename_no_slash s : SLASH ∉ basename s.
  Proof.
    unfold basename. rewrite elem_of_reverse. apply take_to_slash_no_slash.
  Qed.

Lemma md_file_plain s : SLASH ∉ s → plain_segment (s ++ js ".md").
  Proof.
    intros Hs. split_and!.
    - by destruct s.
    - rewrite elem_of_app. intros [?|Hmd]; [done|].
      vm_compute in Hmd. by repeat (apply elem_of_cons in Hmd as [?|Hmd]);
        try apply not_elem_of_nil in Hmd.
    - intros Heq%(f_equal length). rewrite length_app in Heq. simpl in Heq. lia.
    - intros Heq%(f_equal length). rewrite length_app in Heq. simpl in Heq. lia.
  Qed.

Lemma slug_plain s :
    s ≠ [] → Forall (λ c, is_slug_char c = true) s → plain_segment s.
  Proof.
    intros Hne Hs. split_and!; [done|..].
    - intros Hin. rewrite Forall_forall in Hs.
      by apply (slug_char_not_slash _ (Hs _ Hin)).
    - intros ->. inversion_clear Hs as [|?? Hc _].
      by apply slug_char_not_dot in Hc.
    - intros ->. inversion_clear Hs as [|?? Hc _].
      by apply slug_char_not_dot in Hc.
  Qed.
End paths.

(** ** The category of a URL *)

Lemma existsb_lists_url url category :
  existsb (λ file, bool_decide (FileRef.href file = url)) (Category.files category)
  = true ↔ lists_url url category.
Proof.
  unfold lists_url. rewrite existsb_exists. split.
  - intros (file & Hin%list_elem_of_In & Hhref%bool_decide_eq_true). eauto.
  - intros (file & Hin%list_elem_of_In & Hhref). exists file.
    by rewrite bool_decide_eq_true.
Qed.

(** The scan stops at the first category that lists the URL. *)
Lemma scan_categories_first_match url nav slug :
  scan_categories url nav = Some slug ↔
  ∃ before category after,
    nav = before ++ category :: after
    ∧ Forall (λ c, ¬ lists_url url c) before
    ∧ lists_url url category
    ∧ Category.slug category = slug.
Proof.
  induction nav as [|c nav IH]; simpl.
  - split; [done|]. intros (before & ? & ? & Hnav & _). by destruct before.
  - destruct (existsb _ (Category.files c)) eqn:Hc.
    + apply existsb_lists_url in Hc. split.
      * intros [= <-]. by exists [], c, nav.
      * intros ([|c' before] & category & after & Hnav & Hbefore & _ & Hslug).
        -- by simplify_eq/=.
        -- simplify_eq/=. by inversion_clear Hbefore.
    + apply not_true_iff_false in Hc. rewrite existsb_lists_url in Hc.
      rewrite IH. split.
      * intros (before & category & after & -> & Hbefore & Hcat & Hslug).
        exists (c :: before), category, after. split_and!; try done.
        by constructor.
      * intros ([|c' before] & category & after & Hnav & Hbefore & Hcat & Hslug).
        -- by simplify_eq/=.
        -- simplify_eq/=. inversion_clear Hbefore. eauto 10.
Qed.

Lemma scan_categories_none url nav :
  scan_categories url nav = None ↔ Forall (λ c, ¬ lists_url url c) nav.
Proof.
  induction nav as [|c nav IH]; simpl; [by split|].
  destruct (existsb _ (Category.files c)) eqn:Hc.
  - apply existsb_lists_url in Hc. split; [done|].
    by inversion_clear 1.
  - apply not_true_iff_false in Hc. rewrite existsb_lists_url in Hc.
    rewrite IH. split; [by constructor | by inversion_clear 1].
Qed.

Lemma navigation_structure_slugs page :
  Forall (λ c, Forall (λ u, is_slug_char u = true) (Category.slug c))
    (navigation_structure page).
Proof.
  rewrite navigation_structure_titled. apply Forall_fmap, Forall_true.
  intros g. apply slugify_chars.
Qed.

Lemma docs_plain : plain_segment DOCS_DIR.
Proof. apply (bool_decide_unpack _). by vm_compute. Qed.

Lemma others_plain : plain_segment (js "others").
Proof. apply (bool_decide_unpack _). by vm_compute. Qed.

(** The target of a URL: [docs/<bucket>/<file name>.md]. *)
Lemma categorize_filePath nav others url :
  Forall (λ c, Forall (λ u, is_slug_char u = true) (Category.slug c)) nav →
  filePath (categorize nav others url).2
  = js "docs/" ++ bucket url nav ++ js "/" ++ basename url ++ js ".md"
  ∧ dirPath (categorize nav others url).2 = js "docs/" ++ bucket url nav.
Proof.
  intros Hslugs.
  assert (plain_segment (bucket url nav)) as Hbucket.
  { unfold bucket. destruct (scan_categories url nav) as [[|c s]|] eqn:Hscan;
      try apply others_plain.
    apply scan_categories_first_match in Hscan
      as (before & category & after & -> & _ & _ & Hslug).
    apply slug_plain; [done|]. rewrite <- Hslug.
    apply Forall_app in Hslugs as [_ Hslugs]. by inversion_clear Hslugs. }
  assert (filePath (categorize nav others url).2
          = path_join [path_join [DOCS_DIR; bucket url nav];
                       basename url ++ js ".md"]
          ∧ dirPath (categorize nav others url).2
            = path_join [DOCS_DIR; bucket url nav]) as [-> ->].
  { unfold categorize, bucket.
    by destruct (scan_categories url nav) as [[|c s]|]. }
  pose proof (path_join_plain [DOCS_DIR] (bucket url nav)) as Hdir.
  cbn [join_slash app] in Hdir. rewrite Hdir; [|done|..|done].
  2:{ constructor; [apply docs_plain|constructor]. }
  split; [|done].
  pose proof (path_join_plain [DOCS_DIR; bucket url nav]
                (basename url ++ js ".md")) as Hfile.
  cbn [join_slash app] in Hfile. rewrite Hfile; [|done|..].
  - unfold DOCS_DIR. by js_norm.
  - constructor; [apply docs_plain|]. by constructor.
  - apply md_file_plain, basename_no_slash.
Qed.

(** Every download of the loop is written below [docs]. *)
Lemma plan_paths nav others urls :
  Forall (λ c, Forall (λ u, is_slug_char u = true) (Category.slug c)) nav →
  Forall (λ d, filePath d = js "docs/" ++ bucket (dl_url d) nav ++ js "/"
                            ++ basename (dl_url d) ++ js ".md")
    (plan nav others urls).2.
Proof.
  intros Hslugs. revert others.
  induction urls as [|url urls IH]; intros others; simpl; [constructor|].
  pose proof (categorize_filePath nav others url Hslugs) as [Hpath _].
  assert (dl_url (categorize nav others url).2 = url) as Hurl.
  { unfold categorize. by destruct (scan_categories url nav) as [[|c s]|]. }
  destruct (categorize nav others url) as [o d]. specialize (IH o).
  destruct (plan nav o urls) as [o' ds]. cbn [fst snd] in *.
  constructor; [|done]. by rewrite Hurl.
Qed.

Lemma plan_paths_under_docs page others urls :
  Forall (λ d, under DOCS_DIR (filePath d) = true)
    (plan (navigation_structure page) others urls).2.
Proof.
  eapply Forall_impl; [apply plan_paths, navigation_structure_slugs|].
  intros d ->. unfold under. apply orb_true_iff. right.
  apply startsWith_prefix. by eexists.
Qed.

(** The target of a URL in a run: under the slug of the first category that
    lists it when that slug is not empty, under [others] otherwise. *)
Lemma categorize_filePath_cases page others url :
  let nav := navigation_structure page in
  let path := filePath (categorize nav others url).2 in
  (∀ c s, scan_categories url nav = Some (c :: s) →
     path = js "docs/" ++ (c :: s) ++ js "/" ++ basename url ++ js ".md")
  ∧ (scan_categories url nav = None →
       path = js "docs/others/" ++ basename url ++ js ".md")
  ∧ (scan_categories url nav = Some [] →
       path = js "docs/others/" ++ basename url ++ js ".md").
Proof.
  intros nav path.
  destruct (categorize_filePath nav others url (navigation_structure_slugs page))
    as [Hpath _].
  fold path in Hpath. unfold bucket in Hpath. split_and!.
  - intros c s Hscan. by rewrite Hscan in Hpath.
  - intros Hscan. rewrite Hscan in Hpath. rewrite Hpath. by js_norm.
  - intros Hscan. rewrite Hscan in Hpath. rewrite Hpath. by js_norm.
Qed.

(** C1, at the input where the code leaves it. The only category of the
    page lists the URL, and its slug is empty, since its title has no
    character of [a-z0-9-]. The test [!categorySlug] takes the empty slug
    for "no category": the document goes to [docs/others/overview.md] and
    into the others, while the index links it under the category at
    [./docs//overview.md], where no file is written. *)
Theorem listed_url_with_empty_category_slug_goes_to_others :
  let nav := navigation_structure [hajimeni] in
  let w := with_nav serving_world [hajimeni] in
  nav = [hajimeni_category]
  ∧ lists_url overview_url hajimeni_category
  ∧ Category.slug hajimeni_category = []
  ∧ categorize nav [] overview_url
    = ([ {| OtherFile.slug := js "overview"; OtherFile.title := js "overview" |} ],
       {| dl_url := overview_url;
          urlMdFile := overview_url ++ js ".md";
          filePath := js "docs/others/overview.md";
          dirPath := js "docs/others" |})
  ∧ path_join [path_join [DOCS_DIR; Category.slug hajimeni_category];
               basename overview_url ++ js ".md"]
    = js "docs/overview.md"
  ∧ fs (run w fresh).2 !! js "docs/others/overview.md"
    = Some (js "# " ++ overview_url ++ js ".md")
  ∧ fs (run w fresh).2 !! js "docs/overview.md" = None
  ∧ Category.files hajimeni_category ≫= category_link hajimeni_category
    = js "- [Overview](./docs//overview.md)" ++ LF.
Proof.
  intros nav w. split_and!; try (vm_compute; reflexivity).
  exists {| FileRef.slug := js "overview"; FileRef.title := js "Overview";
            FileRef.href := overview_url |}.
  split; [apply list_elem_of_here|reflexivity].
Qed.

(** C10, at the input where the code leaves it. Two categories list the
    URL; the scan stops at the first one, whose slug is empty, and the
    document is written under [others]: neither under the directory of the
    first category nor under the one of the second. *)
Theorem first_match_with_empty_slug_goes_to_others :
  let nav := navigation_structure [hajimeni; getting_started] in
  (∃ second, nav = [hajimeni_category; second]
             ∧ lists_url overview_url second
             ∧ Category.slug second = js "getting-started")
  ∧ lists_url overview_url hajimeni_category
  ∧ scan_categories overview_url nav = Some (Category.slug hajimeni_category)
  ∧ Category.slug hajimeni_category = []
  ∧ filePath (categorize nav [] overview_url).2 = js "docs/others/overview.md"
  ∧ dirPath (categorize nav [] overview_url).2 = js "docs/others".
Proof.
  intros nav. split_and!; try (vm_compute; reflexivity).
  - eexists. split_and!; [vm_compute; reflexivity| |vm_compute; reflexivity].
    eexists. split; [apply list_elem_of_here|reflexivity].
  - eexists. split; [apply list_elem_of_here|reflexivity].
Qed.

(** ** The loop and the promises *)

Section effects.
Context (w : World).

Lemma bind_Ok_inv {A B} (m : Async A) (f : A → Async B) p b p' :
    (m ≫= f) p = (Ok b, p') →
    ∃ a p1, m p = (Ok a, p1) ∧ f a p1 = (Ok b, p').
  Proof.
    unfold mbind, Async_bind. destruct (m p) as [[a|e] p1]; [eauto|done].
  Qed.

Lemma bind_Ok {A B} (m : Async A) (f : A → Async B) p a p1 :
    m p = (Ok a, p1) → (m ≫= f) p = f a p1.
  Proof. unfold mbind, Async_bind. by intros ->. Qed.

Lemma loop_body_returns nav st url p :
    mkdir_error w (dirPath (categorize nav (otherFiles st) url).2) = None →
    loop_body w nav st url p
    = (Ok {| otherFiles := (categorize nav (otherFiles st) url).1;
             downloadPromises :=
               downloadPromises st ++ [(categorize nav (otherFiles st) url).2] |},
       {| fs := fs p;
          trace := trace p
                   ++ loop_effects [(categorize nav (otherFiles st) url).2] |}).
  Proof.
    unfold loop_body. destruct (categorize nav (otherFiles st) url) as [o d].
    simpl. intros Hok.
    unfold mbind, Async_bind, fs_mkdir, axios_issue, mret, Async_ret, emit.
    rewrite Hok. simpl. by rewrite <- app_assoc.
  Qed.

Lemma loop_body_Ok_inv nav st url p st' p' :
    loop_body w nav st url p = (Ok st', p') →
    mkdir_error w (dirPath (categorize nav (otherFiles st) url).2) = None.
  Proof.
    unfold loop_body. destruct (categorize nav (otherFiles st) url) as [o d].
    simpl. unfold mbind, Async_bind, fs_mkdir.
    by destruct (mkdir_error w (dirPath d)).
  Qed.

Lemma for_of_loop_returns nav urls st p :
    Forall (λ d, mkdir_error w (dirPath d) = None)
      (plan nav (otherFiles st) urls).2 →
    for_of (loop_body w nav) urls st p
    = (Ok {| otherFiles := (plan nav (otherFiles st) urls).1;
             downloadPromises :=
               downloadPromises st ++ (plan nav (otherFiles st) urls).2 |},
       {| fs := fs p;
          trace := trace p ++ loop_effects (plan nav (otherFiles st) urls).2 |}).
  Proof.
    revert st p. induction urls as [|url urls IH]; intros st p Hok.
    - simpl. unfold mret, Async_ret. rewrite !app_nil_r.
      by destruct st, p.
    - simpl in *.
      destruct (categorize nav (otherFiles st) url) as [o d] eqn:Hc.
      destruct (plan nav o urls) as [o' ds] eqn:Hp. simpl in *.
      inversion_clear Hok as [|?? Hd Hds].
      erewrite bind_Ok; [|apply loop_body_returns; by rewrite Hc].
      rewrite Hc. simpl. rewrite IH; simpl; rewrite Hp; [|done]. simpl.
      by rewrite <- !app_assoc.
  Qed.

Lemma for_of_loop_Ok_inv nav urls st p st' p' :
    for_of (loop_body w nav) urls st p = (Ok st', p') →
    Forall (λ d, mkdir_error w (dirPath d) = None)
      (plan nav (otherFiles st) urls).2.
  Proof.
    revert st p. induction urls as [|url urls IH]; intros st p Hret.
    - constructor.
    - simpl in Hret. apply bind_Ok_inv in Hret as (st1 & p1 & Hbody & Hrest).
      pose proof (loop_body_Ok_inv _ _ _ _ _ _ Hbody) as Hd.
      rewrite (loop_body_returns _ _ _ _ Hd) in Hbody. simplify_eq.
      apply IH in Hrest. simpl in *.
      destruct (categorize nav (otherFiles st) url) as [o d].
      cbn [fst snd] in Hrest, Hd.
      destruct (plan nav o urls) as [o' ds]. by constructor.
  Qed.

Lemma settle_returns d p :
    settle w d p
    = (Ok (), {| fs := settle_fs w (fs p) d;
                 trace := trace p ++ settle_events w d |}).
  Proof.
    unfold settle, settle_fs, settle_events, download_outcome, fs_writeFile,
      console_error, console_log, emit.
    destruct (doc_response w (urlMdFile d)) as [data|err]; [|done].
    destruct (write_error w (filePath d)) as [err|]; [done|].
    simpl. by rewrite <- app_assoc.
  Qed.

Lemma for_of_settle_returns ds p :
    for_of (λ _ d, settle w d) ds () p
    = (Ok (), {| fs := foldl (settle_fs w) (fs p) ds;
                 trace := trace p ++ (ds ≫= settle_events w) |}).
  Proof.
    revert p. induction ds as [|d ds IH]; intros p.
    - simpl. unfold mret, Async_ret. rewrite app_nil_r. by destruct p.
    - simpl. erewrite bind_Ok; [|apply settle_returns].
      rewrite IH. simpl. by rewrite <- app_assoc.
  Qed.

  (** [downloadAndSaveDocs] returns whenever the [mkdir] calls of its loop
      succeed, whatever happens to the downloads. *)
Lemma downloadAndSaveDocs_returns nav urls p :
    Forall (λ d, mkdir_error w (dirPath d) = None) (plan nav [] urls).2 →
    downloadAndSaveDocs w urls nav p
    = (Ok (plan nav [] urls).1,
       {| fs := foldl (settle_fs w) (fs p) (schedule w (plan nav [] urls).2);
          trace := trace p ++ loop_effects (plan nav [] urls).2
                   ++ (schedule w (plan nav [] urls).2 ≫= settle_events w) |}).
  Proof.
    intros Hok. unfold downloadAndSaveDocs.
    erewrite bind_Ok; [|by apply for_of_loop_returns].
    erewrite bind_Ok; [|apply for_of_settle_returns].
    unfold mret, Async_ret. simpl. by rewrite <- app_assoc.
  Qed.

Lemma downloadAndSaveDocs_Ok_inv nav urls p others p' :
    downloadAndSaveDocs w urls nav p = (Ok others, p') →
    Forall (λ d, mkdir_error w (dirPath d) = None) (plan nav [] urls).2.
  Proof.
    unfold downloadAndSaveDocs. intros Hret.
    apply bind_Ok_inv in Hret as (st & p1 & Hloop & _).
    by apply for_of_loop_Ok_inv in Hloop.
  Qed.
End effects.

(** One download per URL, in the order of the URLs. *)
Lemma plan_downloads nav others urls :
  Forall2 (λ url d, dl_url d = url ∧ urlMdFile d = url ++ js ".md")
    urls (plan nav others urls).2.
Proof.
  revert others. induction urls as [|url urls IH]; intros others; simpl.
  - constructor.
  - destruct (categorize nav others url) as [o d] eqn:Hc.
    specialize (IH o). destruct (plan nav o urls) as [o' ds]. simpl in *.
    constructor; [|done]. unfold categorize in Hc.
    destruct (scan_categories url nav) as [[|c s]|]; by simplify_eq.
Qed.

(** ** Complete runs *)

Section runs.
Context (w : World).

Lemma cleanPreviousBuild_returns p :
    rm_error w DOCS_DIR = None → rm_error w ROOT_README_PATH = None →
    mkdir_error w DOCS_DIR = None →
    cleanPreviousBuild w p
    = (Ok (), {| fs := cleaned (fs p);
                 trace := trace p
                          ++ [Rm DOCS_DIR; Rm ROOT_README_PATH; Mkdir DOCS_DIR] |}).
  Proof.
    intros H1 H2 H3.
    unfold cleanPreviousBuild, mbind, Async_bind, fs_rm, fs_mkdir, emit, cleaned.
    rewrite H1. cbn [fs trace]. rewrite H2. cbn [fs trace]. rewrite H3.
    cbn [fs trace]. by rewrite <- !app_assoc.
  Qed.

Lemma cleanPreviousBuild_Ok_inv p u p' :
    cleanPreviousBuild w p = (Ok u, p') →
    rm_error w DOCS_DIR = None ∧ rm_error w ROOT_README_PATH = None
    ∧ mkdir_error w DOCS_DIR = None.
  Proof.
    unfold cleanPreviousBuild, mbind, Async_bind, fs_rm, fs_mkdir.
    destruct (rm_error w DOCS_DIR); [done|].
    destruct (rm_error w ROOT_README_PATH); [done|].
    by destruct (mkdir_error w DOCS_DIR).
  Qed.

Lemma fetchAllUrlsFromSitemap_Ok p urls p' :
    fetchAllUrlsFromSitemap w p = (Ok urls, p') ↔
    (∃ parsed, sitemap_response w = Ok parsed ∧ sitemap_urls parsed = Ok urls)
    ∧ p' = emit (HttpGet SITEMAP_URL) p.
  Proof.
    unfold fetchAllUrlsFromSitemap, mbind, Async_bind, axios_get, lift.
    destruct (sitemap_response w) as [parsed|e].
    - split.
      + intros [= Hu <-]. eauto.
      + intros [(parsed' & [= <-] & Hu) ->]. by rewrite Hu.
    - split; [done|]. by intros [(parsed' & ? & _) _].
  Qed.

Lemma fetchNavigationStructure_Ok p nav p' :
    fetchNavigationStructure w p = (Ok nav, p') ↔
    (∃ page, nav_response w = Ok page ∧ nav = navigation_structure page)
    ∧ p' = emit (HttpGet NAV_PAGE_URL) p.
  Proof.
    unfold fetchNavigationStructure, mbind, Async_bind, axios_get, mret,
      Async_ret.
    destruct (nav_response w) as [page|e].
    - split.
      + intros [= <- <-]. eauto.
      + by intros [(page' & [= <-] & ->) ->].
    - split; [done|]. by intros [(page' & ? & _) _].
  Qed.

Lemma main_completes urls page p :
    orchestration_succeeds w urls page →
    main w p = (Ok (), main_state w urls page p).
  Proof.
    intros (H1 & H2 & H3 & Hsm & Hnav & Hmk & Hwr). unfold main.
    erewrite bind_Ok; [|by apply cleanPreviousBuild_returns].
    erewrite bind_Ok; [|by apply fetchAllUrlsFromSitemap_Ok].
    erewrite bind_Ok; [|apply fetchNavigationStructure_Ok; eauto].
    erewrite bind_Ok; [|by apply downloadAndSaveDocs_returns].
    unfold generateReadme, fs_writeFile, main_state, emit. rewrite Hwr.
    destruct (plan (navigation_structure page) [] urls) as [others ds].
    cbn [fs trace fst snd]. by rewrite <- !app_assoc.
  Qed.

Lemma run_completes urls page p :
    orchestration_succeeds w urls page →
    run w p = (0, final_state w urls page p).
  Proof.
    intros Hok. unfold run. by rewrite (main_completes _ _ _ Hok).
  Qed.

Lemma run_exit_0_inv p :
    (run w p).1 = 0 → ∃ urls page, orchestration_succeeds w urls page.
  Proof.
    unfold run. destruct (main w p) as [[u|e] p'] eqn:Hmain; [|done].
    intros _. unfold main in Hmain.
    apply bind_Ok_inv in Hmain as (? & p1 & Hclean & Hmain).
    apply bind_Ok_inv in Hmain as (urls & p2 & Hsm & Hmain).
    apply bind_Ok_inv in Hmain as (nav & p3 & Hnav & Hmain).
    apply bind_Ok_inv in Hmain as (others & p4 & Hdl & Hmain).
    apply cleanPreviousBuild_Ok_inv in Hclean as (H1 & H2 & H3).
    apply fetchAllUrlsFromSitemap_Ok in Hsm as [Hsm _].
    apply fetchNavigationStructure_Ok in Hnav as [(page & Hpage & ->) _].
    apply downloadAndSaveDocs_Ok_inv in Hdl.
    exists urls, page. unfold orchestration_succeeds. split_and!; try done.
    unfold generateReadme, fs_writeFile in Hmain.
    by destruct (write_error w ROOT_README_PATH).
  Qed.
End runs.

(** ** The order of the effects of the loop *)

Lemma settle_events_no_mkdir_get w ds :
  Forall (λ e, is_mkdir_or_get e = false) (ds ≫= settle_events w).
Proof.
  apply Forall_forall. intros e He.
  apply list_elem_of_bind in He as (d & He & _).
  unfold settle_events in He.
  destruct (download_outcome w d).
  - by apply list_elem_of_singleton in He as ->.
  - apply elem_of_cons in He as [->|He]; [done|].
    by apply list_elem_of_singleton in He as ->.
Qed.

(** With two URLs the request for the first one precedes the [mkdir] of the
    second one. *)
Lemma downloads_before_later_mkdirs :
  ¬ downloads_after_all_mkdirs
      (trace (downloadAndSaveDocs serving_world [overview_url; quickstart_url]
                (navigation_structure [getting_started]) fresh).2).
Proof.
  intros Hclaim.
  assert (2 < 1)%nat; [|lia].
  eapply (Hclaim 1%nat 2%nat); vm_compute; reflexivity.
Qed.

Lemma loop_effects_mkdir_get ds :
  Forall (λ e, is_mkdir_or_get e = true) (loop_effects ds).
Proof.
  apply Forall_forall. intros e He. unfold loop_effects in He.
  apply list_elem_of_bind in He as (d & He & _).
  apply elem_of_cons in He as [->|He]; [done|].
  by apply list_elem_of_singleton in He as ->.
Qed.

Lemma filter_keeps_all {A} (f : A → bool) (l : list A) :
  Forall (λ x, f x = true) l → List.filter f l = l.
Proof. induction 1 as [|x l Hx _ IH]; [done|]. simpl. by rewrite Hx, IH. Qed.

Lemma filter_drops_all {A} (f : A → bool) (l : list A) :
  Forall (λ x, f x = false) l → List.filter f l = [].
Proof. induction 1 as [|x l Hx _ IH]; [done|]. simpl. by rewrite Hx. Qed.

(** Whatever way the events of the promises fall between the events of the
    loop, the [mkdir] calls and the requests are those of the loop, in the
    order of the loop. *)
Lemma filter_interleaving (issued settled t : list event) :
  interleaving issued settled t →
  Forall (λ e, is_mkdir_or_get e = true) issued →
  Forall (λ e, is_mkdir_or_get e = false) settled →
  List.filter is_mkdir_or_get t = issued.
Proof.
  induction 1 as [|e issued settled t _ IH|e issued settled t _ IH];
    intros Hissued Hsettled; [done|..].
  - inversion_clear Hissued as [|?? He Hrest]. simpl. rewrite He.
    by rewrite IH.
  - inversion_clear Hsettled as [|?? He Hrest]. simpl. rewrite He. by apply IH.
Qed.

(** C4, as the code has it. Among the [mkdir] calls and the download
    requests, the loop goes one URL at a time: the [mkdir] of a URL, then,
    once it has completed, the request for that URL, then the [mkdir] of
    the next URL. Every request follows the [mkdir] of its own URL and
    precedes the [mkdir] of the URLs after it. The statement is about these
    two kinds of events: the writes and messages of the promises fall
    between them as the responses arrive, and wherever they fall, the
    [mkdir] calls and the requests are the same list. *)
Theorem mkdir_then_request_url_by_url
    (w : World) (nav : list Category.t) (urls : list jsstring) (p : Proc) :
  Forall (λ d, mkdir_error w (dirPath d) = None) (plan nav [] urls).2 →
  List.filter is_mkdir_or_get (trace (downloadAndSaveDocs w urls nav p).2)
  = List.filter is_mkdir_or_get (trace p)
    ++ ((plan nav [] urls).2 ≫= λ d, [Mkdir (dirPath d); HttpGet (urlMdFile d)])
  ∧ (∀ t, interleaving
            ((plan nav [] urls).2 ≫= λ d, [Mkdir (dirPath d); HttpGet (urlMdFile d)])
            (schedule w (plan nav [] urls).2 ≫= settle_events w) t →
          List.filter is_mkdir_or_get t
          = (plan nav [] urls).2 ≫= λ d, [Mkdir (dirPath d); HttpGet (urlMdFile d)])
  ∧ Forall2 (λ url d, dl_url d = url ∧ urlMdFile d = url ++ js ".md")
      urls (plan nav [] urls).2.
Proof.
  intros Hok. rewrite (downloadAndSaveDocs_returns _ _ _ _ Hok).
  cbn [snd trace]. split_and!.
  - rewrite !List.filter_app.
    rewrite (filter_keeps_all _ _ (loop_effects_mkdir_get _)).
    rewrite (filter_drops_all _ _ (settle_events_no_mkdir_get w _)).
    by rewrite app_nil_r.
  - intros t Ht. apply (filter_interleaving _ _ _ Ht).
    + apply loop_effects_mkdir_get.
    + apply settle_events_no_mkdir_get.
  - apply plan_downloads.
Qed.

(** The two URLs of the getting-started group. *)
Lemma mkdir_then_request_url_by_url_witness :
  List.filter is_mkdir_or_get
    (trace (downloadAndSaveDocs serving_world [overview_url; quickstart_url]
              (navigation_structure [getting_started]) fresh).2)
  = [ Mkdir (js "docs/getting-started");
      HttpGet (overview_url ++ js ".md");
      Mkdir (js "docs/getting-started");
      HttpGet (quickstart_url ++ js ".md") ].
Proof.
  destruct (mkdir_then_request_url_by_url serving_world
              (navigation_structure [getting_started])
              [overview_url; quickstart_url] fresh) as (Htrace & _).
  - vm_compute. repeat constructor.
  - rewrite Htrace. reflexivity.
Defined.

(** ** The others *)

Lemma existsb_other_file fileSlug slugs :
  existsb (λ f, bool_decide (OtherFile.slug f = fileSlug)) (other_file <$> slugs)
  = bool_decide (fileSlug ∈ slugs).
Proof.
  induction slugs as [|s slugs IH]; [done|].
  cbn [fmap list_fmap existsb other_file OtherFile.slug].
  change (list_fmap _ _ other_file slugs) with (other_file <$> slugs).
  rewrite IH. destruct (decide (s = fileSlug)) as [->|Hne].
  - rewrite bool_decide_eq_true_2 by done. simpl.
    symmetry. apply bool_decide_eq_true_2, list_elem_of_here.
  - rewrite (bool_decide_eq_false_2 (s = fileSlug)) by done. simpl.
    apply bool_decide_ext. rewrite elem_of_cons. split; [by right|].
    by intros [?|?].
Qed.

(** What one iteration does to the others. *)
Lemma categorize_others nav others url :
  (categorize nav others url).1
  = if falsy (scan_categories url nav)
    then (if existsb (λ f, bool_decide (OtherFile.slug f = basename url)) others
          then others
          else others ++ [other_file (basename url)])
    else others.
Proof.
  unfold categorize. by destruct (scan_categories url nav) as [[|c s]|].
Qed.

Lemma plan_others_from nav slugs urls :
  (plan nav (other_file <$> slugs) urls).1
  = other_file <$>
      (slugs ++ first_occurrences_from slugs
                  (basename <$> List.filter (λ url, falsy (scan_categories url nav))
                                  urls)).
Proof.
  revert slugs. induction urls as [|url urls IH]; intros slugs.
  - simpl. by rewrite app_nil_r.
  - cbn [plan List.filter].
    pose proof (categorize_others nav (other_file <$> slugs) url) as Ho.
    destruct (categorize nav (other_file <$> slugs) url) as [o d].
    cbn [fst] in Ho. subst o. rewrite existsb_other_file.
    destruct (falsy (scan_categories url nav)).
    + cbn [fmap list_fmap first_occurrences_from].
      destruct (bool_decide (basename url ∈ slugs)).
      * specialize (IH slugs).
        by destruct (plan nav (other_file <$> slugs) urls).
      * change [other_file (basename url)] with (other_file <$> [basename url]).
        rewrite <- fmap_app. specialize (IH (slugs ++ [basename url])).
        destruct (plan nav (other_file <$> slugs ++ [basename url]) urls).
        cbn [fst] in *. rewrite IH. by rewrite <- app_assoc.
    + specialize (IH slugs).
      by destruct (plan nav (other_file <$> slugs) urls).
Qed.

Lemma first_occurrences_from_NoDup seen l :
  NoDup seen → NoDup (seen ++ first_occurrences_from seen l).
Proof.
  revert seen. induction l as [|x l IH]; intros seen Hseen; simpl.
  - by rewrite app_nil_r.
  - case_bool_decide as Hx; [by apply IH|].
    rewrite cons_middle, app_assoc. apply IH.
    apply NoDup_app. split_and!; [done| |apply NoDup_singleton].
    intros y Hy ->%list_elem_of_singleton. done.
Qed.

Lemma first_occurrences_from_elem seen l x :
  x ∈ l → x ∈ seen ++ first_occurrences_from seen l.
Proof.
  revert seen. induction l as [|y l IH]; intros seen Hx; [by inversion Hx|].
  simpl. apply elem_of_cons in Hx as [->|Hx].
  - case_bool_decide as Hy.
    + apply elem_of_app. by left.
    + rewrite elem_of_app, elem_of_cons. auto.
  - case_bool_decide as Hy; [by apply IH|].
    rewrite cons_middle, app_assoc. by apply IH.
Qed.

Lemma other_links_other_files slugs :
  (other_file <$> slugs) ≫= other_link
  = slugs ≫= λ s, js "- [" ++ s ++ js "](./docs/others/" ++ s ++ js ".md)" ++ LF.
Proof.
  induction slugs as [|s slugs IH]; [done|].
  rewrite fmap_cons, !bind_cons, IH. reflexivity.
Qed.

Lemma others_section_other_files slugs :
  others_section (other_file <$> slugs)
  = match slugs with
    | [] => []
    | _ => js "## Others" ++ LF ++ LF
           ++ (slugs ≫= λ s, js "- [" ++ s ++ js "](./docs/others/" ++ s
                             ++ js ".md)" ++ LF)
           ++ LF
    end.
Proof.
  destruct slugs as [|s0 slugs]; [done|].
  rewrite <- other_links_other_files. reflexivity.
Qed.

Lemma existsb_slug fileSlug (others : list OtherFile.t) :
  existsb (λ f, bool_decide (OtherFile.slug f = fileSlug)) others
  = bool_decide (fileSlug ∈ OtherFile.slug <$> others).
Proof.
  induction others as [|o others IH]; [done|].
  rewrite fmap_cons. cbn [existsb]. rewrite IH.
  destruct (decide (OtherFile.slug o = fileSlug)) as [<-|Hne].
  - rewrite bool_decide_eq_true_2 by done. simpl.
    symmetry. apply bool_decide_eq_true_2, list_elem_of_here.
  - rewrite (bool_decide_eq_false_2 (OtherFile.slug o = fileSlug)) by done.
    simpl. apply bool_decide_ext. rewrite elem_of_cons. split; [by right|].
    by intros [?|?].
Qed.

(** The others of a run, by the test the code makes: one record for each
    file name of the URLs for which the slug that the scan found is [null]
    or empty, in the order of the first occurrences. *)
Lemma downloadAndSaveDocs_others
    (w : World) (nav : list Category.t) (urls : list jsstring) (p : Proc) :
  Forall (λ d, mkdir_error w (dirPath d) = None) (plan nav [] urls).2 →
  (downloadAndSaveDocs w urls nav p).1
  = Ok (other_file <$>
          first_occurrences
            (basename <$> List.filter (λ url, falsy (scan_categories url nav))
                            urls)).
Proof.
  intros Hok. rewrite (downloadAndSaveDocs_returns _ _ _ _ Hok). cbn [fst].
  f_equal. apply (plan_others_from nav [] urls).
Qed.

Lemma first_occurrences_from_elem_inv seen l x :
  x ∈ first_occurrences_from seen l → x ∈ l.
Proof.
  revert seen. induction l as [|y l IH]; intros seen; simpl; [done|].
  case_bool_decide as Hy.
  - intros Hx. apply list_elem_of_further. by apply (IH seen).
  - intros [->|Hx]%elem_of_cons; [apply list_elem_of_here|].
    apply list_elem_of_further. by apply (IH (seen ++ [y])).
Qed.

(** Where the categories that list a URL have a slug, the test of the code
    singles out the URLs that match no navigation href. *)
Lemma filter_falsy_unlisted nav urls :
  (∀ url category, url ∈ urls → category ∈ nav → lists_url url category →
     Category.slug category ≠ []) →
  List.filter (λ url, falsy (scan_categories url nav)) urls
  = filter (unlisted nav) urls.
Proof.
  induction urls as [|url urls IH]; intros Hslug; [done|].
  cbn [List.filter]. rewrite filter_cons.
  rewrite IH by (intros u c Hu; apply Hslug; by apply list_elem_of_further).
  destruct (scan_categories url nav) as [slug|] eqn:Hscan.
  - apply scan_categories_first_match in Hscan
      as (before & category & after & -> & _ & Hlists & <-).
    assert (Category.slug category ≠ []) as Hne.
    { apply (Hslug url); [apply list_elem_of_here| |done].
      apply elem_of_app. right. apply list_elem_of_here. }
    rewrite decide_False.
    + by destruct (Category.slug category).
    + unfold unlisted. rewrite Forall_app, Forall_cons. by intros (_ & ? & _).
  - apply scan_categories_none in Hscan. by rewrite decide_True.
Qed.


(** ** Failures of single documents *)

Lemma settle_events_cases w d :
  (∀ err, doc_response w (urlMdFile d) = Throw err →
     settle_events w d = [ConsoleError (failed_to_download (dl_url d) err)])
  ∧ (∀ data err, doc_response w (urlMdFile d) = Ok data →
       write_error w (filePath d) = Some err →
       settle_events w d = [ConsoleError (failed_to_download (dl_url d) err)])
  ∧ (∀ data, doc_response w (urlMdFile d) = Ok data →
       write_error w (filePath d) = None →
       settle_events w d
       = [WriteFile (filePath d) data; ConsoleLog (js "   -> " ++ filePath d)]).
Proof.
  unfold settle_events, download_outcome. split_and!.
  - by intros err ->.
  - by intros data err -> ->.
  - by intros data -> ->.
Qed.

Lemma settled_in_trace w urls page p d e :
  schedule w (plan (navigation_structure page) [] urls).2
    ≡ₚ (plan (navigation_structure page) [] urls).2 →
  d ∈ (plan (navigation_structure page) [] urls).2 →
  e ∈ settle_events w d →
  e ∈ trace (final_state w urls page p).
Proof.
  intros Hperm Hd He. unfold final_state, main_state, emit.
  destruct (plan (navigation_structure page) [] urls) as [others ds].
  cbn [fs trace snd] in *. rewrite !elem_of_app. left. right. right. right. left.
  apply list_elem_of_bind. exists d. split; [done|]. by rewrite Hperm.
Qed.

(** After all promises have settled, the path of a successful download
    holds the body of a successful download to that path. *)
Lemma foldl_settle_fs_written w ds m d data :
  d ∈ ds → download_outcome w d = inr data →
  ∃ d' data', d' ∈ ds ∧ filePath d' = filePath d
    ∧ download_outcome w d' = inr data'
    ∧ foldl (settle_fs w) m ds !! filePath d = Some data'.
Proof.
  induction ds as [|x ds IH] using rev_ind; intros Hd Hout; [by inversion Hd|].
  rewrite foldl_app. cbn [foldl]. unfold settle_fs at 1.
  destruct (download_outcome w x) as [err|body] eqn:Hx.
  - apply elem_of_app in Hd as [Hd| ->%list_elem_of_singleton]; [|congruence].
    destruct (IH Hd Hout) as (d' & data' & Hd' & Hp & Ho & Hl).
    exists d', data'. rewrite elem_of_app. auto.
  - destruct (decide (filePath x = filePath d)) as [Hp|Hp].
    + exists x, body. rewrite Hp, lookup_insert_eq, elem_of_app.
      split_and!; try done. right. apply list_elem_of_here.
    + apply elem_of_app in Hd as [Hd| ->%list_elem_of_singleton]; [|done].
      destruct (IH Hd Hout) as (d' & data' & Hd' & Hp' & Ho & Hl).
      exists d', data'. rewrite lookup_insert_ne, elem_of_app by done. auto.
Qed.

Lemma written_in_final_state w urls page p d data :
  schedule w (plan (navigation_structure page) [] urls).2
    ≡ₚ (plan (navigation_structure page) [] urls).2 →
  d ∈ (plan (navigation_structure page) [] urls).2 →
  download_outcome w d = inr data →
  ∃ d' data', d' ∈ (plan (navigation_structure page) [] urls).2
    ∧ filePath d' = filePath d ∧ download_outcome w d' = inr data'
    ∧ fs (final_state w urls page p) !! filePath d = Some data'.
Proof.
  intros Hperm Hd Hout.
  pose proof (plan_paths_under_docs page [] urls) as Hdocs.
  rewrite Forall_forall in Hdocs. specialize (Hdocs d Hd).
  unfold final_state, main_state, emit.
  destruct (plan (navigation_structure page) [] urls) as [others ds].
  cbn [fs trace snd] in *. rewrite <- Hperm in Hd.
  destruct (foldl_settle_fs_written w _ (cleaned (fs p)) d data Hd Hout)
    as (d' & data' & Hd' & Hp & Ho & Hl).
  exists d', data'. rewrite Hperm in Hd'. split_and!; try done.
  rewrite lookup_insert_ne; [done|]. intros Heq. rewrite <- Heq in Hdocs.
  discriminate Hdocs.
Qed.

(** C2. When the download or the write of single documents fails, each
    failure is caught and logged with its URL and the message of the error,
    every other document is still written, [downloadAndSaveDocs] returns
    and the process exits with status 0, even when every download fails. *)
Theorem failed_downloads_are_logged_and_run_exits_0
    (w : World) (urls : list jsstring) (page : list NavGroup) (p : Proc) :
  orchestration_succeeds w urls page →
  schedule w (plan (navigation_structure page) [] urls).2
    ≡ₚ (plan (navigation_structure page) [] urls).2 →
  (run w p).1 = 0
  ∧ (∀ p0, (downloadAndSaveDocs w urls (navigation_structure page) p0).1
           = Ok (plan (navigation_structure page) [] urls).1)
  ∧ (∀ url, url ∈ urls →
       ∃ d, d ∈ (plan (navigation_structure page) [] urls).2
         ∧ dl_url d = url ∧ urlMdFile d = url ++ js ".md"
         ∧ (∀ err, doc_response w (url ++ js ".md") = Throw err →
              ConsoleError (js "   ! Failed to download " ++ url ++ js ": "
                            ++ message err) ∈ trace (run w p).2)
         ∧ (∀ data err, doc_response w (url ++ js ".md") = Ok data →
              write_error w (filePath d) = Some err →
              ConsoleError (js "   ! Failed to download " ++ url ++ js ": "
                            ++ message err) ∈ trace (run w p).2)
         ∧ (∀ data, doc_response w (url ++ js ".md") = Ok data →
              write_error w (filePath d) = None →
              WriteFile (filePath d) data ∈ trace (run w p).2
              ∧ ConsoleLog (js "   -> " ++ filePath d) ∈ trace (run w p).2
              ∧ ∃ d' data',
                  d' ∈ (plan (navigation_structure page) [] urls).2
                  ∧ filePath d' = filePath d
                  ∧ doc_response w (urlMdFile d') = Ok data'
                  ∧ fs (run w p).2 !! filePath d = Some data')).
Proof.
  intros Hok Hperm. rewrite (run_completes _ _ _ _ Hok). split_and!.
  - done.
  - intros p0. rewrite downloadAndSaveDocs_returns; [done|]. apply Hok.
  - intros url Hurl.
    pose proof (plan_downloads (navigation_structure page) [] urls) as Hplan.
    apply list_elem_of_lookup in Hurl as [i Hi].
    destruct (Forall2_lookup_l _ _ _ _ _ Hplan Hi) as (d & Hd & Hu & Hmd).
    exists d. apply list_elem_of_lookup_2 in Hd.
    destruct (settle_events_cases w d) as (Hreq & Hwr & Hdone).
    rewrite Hmd in Hreq, Hwr, Hdone. rewrite Hu in Hreq, Hwr.
    split_and!; try done.
    + intros err Herr. eapply settled_in_trace; [done..|].
      rewrite (Hreq _ Herr). apply list_elem_of_here.
    + intros data err Hdata Herr. eapply settled_in_trace; [done..|].
      rewrite (Hwr _ _ Hdata Herr). apply list_elem_of_here.
    + intros data Hdata Hnone. split_and!.
      * eapply settled_in_trace; [done..|].
        rewrite (Hdone _ Hdata Hnone), !elem_of_cons. auto.
      * eapply settled_in_trace; [done..|].
        rewrite (Hdone _ Hdata Hnone), !elem_of_cons. auto.
      * destruct (written_in_final_state w urls page p d data Hperm Hd)
          as (d' & data' & Hd' & Hp & Ho & Hl).
        { unfold download_outcome. by rewrite Hmd, Hdata, Hnone. }
        exists d', data'. split_and!; try done.
        unfold download_outcome in Ho.
        destruct (doc_response w (urlMdFile d')); [|done].
        destruct (write_error w (filePath d')); [done|]. by simplify_eq.
Qed.

(** Every download is refused: the run exits with 0 and logs the failure. *)
Lemma failed_downloads_are_logged_and_run_exits_0_witness :
  (run refusing_world fresh).1 = 0
  ∧ ConsoleError (js "   ! Failed to download " ++ overview_url ++ js ": "
                  ++ js "Request failed with status code 503")
      ∈ trace (run refusing_world fresh).2.
Proof.
  assert (orchestration_succeeds refusing_world [overview_url; quickstart_url]
            [getting_started]) as Hok.
  { split_and!; try reflexivity.
    - eexists. split; reflexivity.
    - vm_compute. repeat constructor. }
  pose proof (failed_downloads_are_logged_and_run_exits_0 refusing_world
                [overview_url; quickstart_url] [getting_started] fresh Hok
                (reverse_Permutation _)) as (Hexit & _ & Hlog).
  split; [exact Hexit|].
  destruct (Hlog overview_url) as (d & _ & _ & _ & Herr & _).
  { apply list_elem_of_here. }
  exact (Herr _ eq_refl).
Defined.

(** ** Two runs against the same site *)

Lemma cleaned_no_documents m path :
  under DOCS_DIR path = true → cleaned m !! path = None.
Proof.
  intros Hunder. unfold cleaned. rewrite lookup_delete_ne.
  - apply map_lookup_filter_None. right. intros data _. simpl. by rewrite Hunder.
  - intros <-. discriminate Hunder.
Qed.









(** * Further properties of the code *)

(** ** Cleaning *)

Lemma cleaned_outside m path :
  outside_output path → cleaned m !! path = m !! path.
Proof.
  intros [Hunder Hne]. unfold cleaned. rewrite lookup_delete_ne by done.
  destruct (m !! path) as [data|] eqn:Hm.
  - by apply map_lookup_filter_Some.
  - apply map_lookup_filter_None. by left.
Qed.

Lemma cleaned_no_index m : cleaned m !! ROOT_README_PATH = None.
Proof. unfold cleaned. apply lookup_delete_eq. Qed.

(** X1. When [cleanPreviousBuild] returns, no file is left at or below
    [docs], the index is gone, every other file is as before, and the three
    calls are in the trace in the order of the source. *)
Theorem cleanPreviousBuild_removes_the_output_only
    (w : World) (p p' : Proc) (u : unit) :
  cleanPreviousBuild w p = (Ok u, p') →
  (∀ path, under DOCS_DIR path = true → fs p' !! path = None)
  ∧ fs p' !! ROOT_README_PATH = None
  ∧ (∀ path, outside_output path → fs p' !! path = fs p !! path)
  ∧ trace p' = trace p ++ [Rm DOCS_DIR; Rm ROOT_README_PATH; Mkdir DOCS_DIR].
Proof.
  intros Hret.
  destruct (cleanPreviousBuild_Ok_inv _ _ _ _ Hret) as (H1 & H2 & H3).
  rewrite (cleanPreviousBuild_returns w p H1 H2 H3) in Hret.
  injection Hret as _ <-. cbn [fs trace]. split_and!.
  - intros path Hpath. by apply cleaned_no_documents.
  - apply cleaned_no_index.
  - intros path Hpath. by apply cleaned_outside.
  - done.
Qed.

(** The earlier mirror is removed, [package.json] stays. *)
Lemma cleanPreviousBuild_removes_the_output_only_witness :
  fs (cleanPreviousBuild serving_world earlier_mirror).2
    !! js "docs/getting-started/overview.md" = None
  ∧ fs (cleanPreviousBuild serving_world earlier_mirror).2 !! js "package.json"
    = Some (js "{}").
Proof.
  pose proof (cleanPreviousBuild_removes_the_output_only serving_world
                earlier_mirror (cleanPreviousBuild serving_world earlier_mirror).2
                () eq_refl) as (Hdocs & _ & Hout & _).
  split.
  - apply Hdocs. reflexivity.
  - rewrite Hout; [reflexivity|]. split; [reflexivity|discriminate].
Defined.

(** ** The sitemap, when it is not well formed *)

Lemma map_first_loc_Ok_inv entries vs :
  map_first_loc entries = Ok vs →
  Forall2 (λ e v, head (loc e) = Some v) entries vs.
Proof.
  revert vs. induction entries as [|e entries IH]; intros vs; simpl.
  - intros [= <-]. constructor.
  - unfold first_loc. destruct (loc e) as [|v more] eqn:He; [done|].
    destruct (map_first_loc entries) as [vs'|]; [|done].
    intros [= <-]. constructor; [by rewrite He|]. by apply IH.
Qed.

Lemma filter_prefix_Ok_inv vs out :
  filter_prefix vs = Ok out →
  ∃ locs, vs = XText <$> locs
          ∧ out = List.filter (λ v, startsWith v URL_PREFIX) locs.
Proof.
  revert out. induction vs as [|[v|] vs IH]; intros out; simpl.
  - intros [= <-]. by exists [].
  - destruct (filter_prefix vs) as [out'|]; [|done].
    destruct (IH out' eq_refl) as (locs & -> & ->).
    intros [= <-]. by exists (v :: locs).
  - done.
Qed.

(** X2. The sitemap gives a list of URLs exactly when the root has [<url>]
    children and every one of them has a [<loc>] whose first value is text;
    the list is then the filter of these values. One [<url>] without a text
    [<loc>] makes the whole step throw, also when its URL would not pass the
    filter. *)
Theorem sitemap_urls_returns_iff_every_url_has_a_text_loc
    (parsed : Sitemap) (out : list jsstring) :
  sitemap_urls parsed = Ok out ↔
  ∃ entries locs,
    urlset_url parsed = Some entries
    ∧ loc_values entries locs
    ∧ out = List.filter (λ v, startsWith v URL_PREFIX) locs.
Proof.
  unfold sitemap_urls. split.
  - destruct (urlset_url parsed) as [entries|]; [|done].
    destruct (map_first_loc entries) as [vs|] eqn:Hmap; [|done].
    intros (locs & -> & ->)%filter_prefix_Ok_inv.
    exists entries, locs. split_and!; try done.
    apply map_first_loc_Ok_inv in Hmap. unfold loc_values.
    clear -Hmap. revert entries Hmap.
    induction locs as [|v locs IH]; intros entries Hmap.
    + inversion Hmap. constructor.
    + inversion Hmap as [|e ? entries' ? He Hrest]; subst.
      constructor; [done|]. by apply IH.
  - intros (entries & locs & -> & Hlocs & ->).
    rewrite (map_first_loc_values _ _ Hlocs). apply filter_prefix_texts.
Qed.

(** ** Fatal errors *)

(** X3. When the sitemap cannot be fetched or is not well formed, the run
    ends with status 1 right after the request: the earlier mirror and the
    index are already removed, the navigation page and the documents are
    never requested, and the error is the one reported. *)
Theorem sitemap_failure_ends_the_run_after_cleaning
    (w : World) (p : Proc) (e : Error) :
  rm_error w DOCS_DIR = None → rm_error w ROOT_README_PATH = None →
  mkdir_error w DOCS_DIR = None →
  (sitemap_response w = Throw e
   ∨ ∃ parsed, sitemap_response w = Ok parsed ∧ sitemap_urls parsed = Throw e) →
  run w p
  = (1, {| fs := cleaned (fs p);
           trace := trace p
                    ++ [Rm DOCS_DIR; Rm ROOT_README_PATH; Mkdir DOCS_DIR;
                        HttpGet SITEMAP_URL; FatalError e; Exit 1] |}).
Proof.
  intros H1 H2 H3 Hsm. unfold run, main.
  erewrite bind_Ok; [|by apply cleanPreviousBuild_returns].
  unfold fetchAllUrlsFromSitemap, axios_get, lift, mbind, Async_bind, emit.
  destruct Hsm as [->|(parsed & -> & ->)]; cbn [fs trace];
    by rewrite <- !app_assoc.
Qed.

(** The site answers the sitemap request with an error. *)
Lemma sitemap_failure_ends_the_run_after_cleaning_witness :
  let w := with_sitemap_response serving_world
             (Throw {| message := js "Request failed with status code 500" |}) in
  (run w earlier_mirror).1 = 1
  ∧ fs (run w earlier_mirror).2 !! js "docs/getting-started/overview.md" = None.
Proof.
  intros w.
  rewrite (sitemap_failure_ends_the_run_after_cleaning w earlier_mirror
             {| message := js "Request failed with status code 500" |}
             eq_refl eq_refl eq_refl (or_introl eq_refl)).
  split; reflexivity.
Defined.

(** X4. When the navigation page cannot be fetched, the run ends with
    status 1 after the two requests: the output is removed, no directory of
    a category is made and no document is requested. *)
Theorem navigation_failure_ends_the_run_before_any_download
    (w : World) (p : Proc) (parsed : Sitemap) (urls : list jsstring)
    (e : Error) :
  rm_error w DOCS_DIR = None → rm_error w ROOT_README_PATH = None →
  mkdir_error w DOCS_DIR = None →
  sitemap_response w = Ok parsed → sitemap_urls parsed = Ok urls →
  nav_response w = Throw e →
  run w p
  = (1, {| fs := cleaned (fs p);
           trace := trace p
                    ++ [Rm DOCS_DIR; Rm ROOT_README_PATH; Mkdir DOCS_DIR;
                        HttpGet SITEMAP_URL; HttpGet NAV_PAGE_URL;
                        FatalError e; Exit 1] |}).
Proof.
  intros H1 H2 H3 Hsm Hurls Hnav. unfold run, main.
  erewrite bind_Ok; [|by apply cleanPreviousBuild_returns].
  erewrite bind_Ok; [|apply fetchAllUrlsFromSitemap_Ok; eauto].
  unfold fetchNavigationStructure, axios_get, mbind, Async_bind, emit.
  rewrite Hnav. cbn [fs trace]. by rewrite <- !app_assoc.
Qed.

(** The site answers the request for the navigation page with an error. *)
Lemma navigation_failure_ends_the_run_before_any_download_witness :
  let w := with_nav_response serving_world
             (Throw {| message := js "Request failed with status code 404" |}) in
  (run w earlier_mirror).1 = 1
  ∧ requests (trace (run w earlier_mirror).2) = [SITEMAP_URL; NAV_PAGE_URL].
Proof.
  intros w.
  rewrite (navigation_failure_ends_the_run_before_any_download w earlier_mirror
             (sitemap_of [overview_url; quickstart_url])
             [overview_url; quickstart_url]
             {| message := js "Request failed with status code 404" |}
             eq_refl eq_refl eq_refl eq_refl eq_refl eq_refl).
  split; reflexivity.
Defined.

(** X5. The exit status is 0 exactly when every step outside the download
    promises succeeds (the three calls of the cleaning, the sitemap, the
    navigation page, every [mkdir] of the loop and the write of the index),
    and 1 in every other case; the outcome of the downloads has no part in
    it. *)
Theorem exit_status_0_iff_orchestration_succeeds (w : World) (p : Proc) :
  ((run w p).1 = 0 ↔ ∃ urls page, orchestration_succeeds w urls page)
  ∧ ((run w p).1 ≠ 0 → (run w p).1 = 1)
  ∧ (∀ responses, (run (with_docs w responses) p).1 = (run w p).1).
Proof.
  assert (∀ w', (run w' p).1 ≠ 0 → (run w' p).1 = 1) as Hstatus.
  { intros w'. unfold run. by destruct (main w' p) as [[u|e] p']. }
  assert (∀ w', (run w' p).1 = 0 ↔ ∃ urls page, orchestration_succeeds w' urls page)
    as Hiff.
  { intros w'. split; [apply run_exit_0_inv|].
    intros (urls & page & Hok). by rewrite (run_completes _ _ _ _ Hok). }
  split_and!; [apply Hiff|apply Hstatus|].
  intros responses.
  assert (∀ urls page, orchestration_succeeds (with_docs w responses) urls page
                       ↔ orchestration_succeeds w urls page) as Hsame by done.
  destruct (decide ((run w p).1 = 0)) as [H0|H0].
  - rewrite H0. apply Hiff. apply Hiff in H0 as (urls & page & Hok).
    exists urls, page. by apply Hsame.
  - rewrite (Hstatus w H0). apply Hstatus. intros H0'. apply H0, Hiff.
    apply Hiff in H0' as (urls & page & Hok). exists urls, page.
    by apply Hsame.
Qed.

(** Every download is refused and the status is the one of a run where
    every download is served. *)
Lemma exit_status_0_iff_orchestration_succeeds_witness :
  (run (with_docs serving_world (doc_response refusing_world)) fresh).1
  = (run serving_world fresh).1.
Proof.
  exact (proj2 (proj2 (exit_status_0_iff_orchestration_succeeds serving_world
                         fresh)) (doc_response refusing_world)).
Defined.

(** ** What a run leaves alone *)

Lemma hoare_bind {A B} (m : Async A) (f : A → Async B) P Q R E :
  hoare P m Q E → (∀ a, hoare (Q a) (f a) R E) → hoare P (m ≫= f) R E.
Proof.
  intros Hm Hf p Hp. specialize (Hm p Hp). unfold mbind, Async_bind.
  destruct (m p) as [[a|e] p1]; [|done]. by apply Hf.
Qed.

Section unchanged_path.
Context (w : World) (path : jsstring) (v : option jsstring).

Lemma fs_mkdir_kept dir :
  hoare (holds path v) (fs_mkdir w dir) (λ _, holds path v) (holds path v).
Proof.
  intros p Hp. unfold fs_mkdir. by destruct (mkdir_error w dir).
Qed.

Lemma fs_rm_file_kept target :
  target ≠ path →
  hoare (holds path v) (fs_rm w target false) (λ _, holds path v)
    (holds path v).
Proof.
  intros Hne p Hp. unfold fs_rm. destruct (rm_error w target); [done|].
  unfold holds. cbn [fs emit]. by rewrite lookup_delete_ne.
Qed.

Lemma fs_rm_tree_kept dir :
  under dir path = false →
  hoare (holds path v) (fs_rm w dir true) (λ _, holds path v) (holds path v).
Proof.
  intros Hout p Hp. unfold fs_rm. destruct (rm_error w dir); [done|].
  unfold holds in *. cbn [fs emit]. rewrite <- Hp.
  destruct (fs p !! path) as [data|] eqn:Hl.
  - by apply map_lookup_filter_Some.
  - apply map_lookup_filter_None. by left.
Qed.

Lemma fs_writeFile_kept target data :
  target ≠ path →
  hoare (holds path v) (fs_writeFile w target data) (λ _, holds path v)
    (holds path v).
Proof.
  intros Hne p Hp. unfold fs_writeFile. destruct (write_error w target); [done|].
  unfold holds. cbn [fs emit]. by rewrite lookup_insert_ne.
Qed.

Lemma for_of_loop_fs nav urls st p :
  fs (for_of (loop_body w nav) urls st p).2 = fs p.
Proof.
  revert st p. induction urls as [|url urls IH]; intros st p; [done|].
  simpl. unfold mbind at 1, Async_bind at 1.
  destruct (loop_body w nav st url p) as [[st1|e] p1] eqn:Hbody.
  - rewrite IH. pose proof (loop_body_Ok_inv _ _ _ _ _ _ _ Hbody) as Hd.
    rewrite (loop_body_returns _ _ _ _ _ Hd) in Hbody. by simplify_eq.
  - unfold loop_body in Hbody.
    destruct (categorize nav (otherFiles st) url) as [o d].
    unfold mbind, Async_bind, fs_mkdir in Hbody.
    destruct (mkdir_error w (dirPath d)); [by simplify_eq|done].
Qed.

Lemma foldl_settle_fs_other_path ds m :
  Forall (λ d, filePath d ≠ path) ds →
  foldl (settle_fs w) m ds !! path = m !! path.
Proof.
  intros Hds. revert m. induction Hds as [|d ds Hd _ IH]; intros m; [done|].
  simpl. rewrite IH. unfold settle_fs.
  destruct (download_outcome w d); [done|]. by rewrite lookup_insert_ne.
Qed.

(** [downloadAndSaveDocs] changes no file outside [docs], whether it
    returns or throws. *)
Lemma downloadAndSaveDocs_kept page urls :
  under DOCS_DIR path = false →
  schedule w (plan (navigation_structure page) [] urls).2
    ≡ₚ (plan (navigation_structure page) [] urls).2 →
  hoare (holds path v) (downloadAndSaveDocs w urls (navigation_structure page))
    (λ _, holds path v) (holds path v).
Proof.
  intros Hout Hperm p Hp. unfold downloadAndSaveDocs.
  unfold mbind at 1, Async_bind at 1.
  pose proof (for_of_loop_fs (navigation_structure page) urls
                {| otherFiles := []; downloadPromises := [] |} p) as Hfs.
  destruct (for_of _ urls _ p) as [[st|e] p1] eqn:Hloop.
  - pose proof (for_of_loop_Ok_inv _ _ _ _ _ _ _ Hloop) as Hok.
    rewrite (for_of_loop_returns _ _ _ _ _ Hok) in Hloop.
    injection Hloop as <- <-.
    erewrite bind_Ok; [|apply for_of_settle_returns].
    unfold mret, Async_ret, holds in *. cbn [fs trace downloadPromises app] in *.
    rewrite foldl_settle_fs_other_path; [done|].
    rewrite Hperm. eapply Forall_impl; [apply plan_paths_under_docs|].
    intros d Hd Heq. cbn beta in Hd. congruence.
  - unfold holds in *. cbn [snd] in Hfs. by rewrite Hfs.
Qed.
End unchanged_path.

Section main_leaves_alone.
Context (w : World).
Hypothesis schedule_permutes : ∀ ds, schedule w ds ≡ₚ ds.

Lemma fetchAllUrlsFromSitemap_kept path v :
  hoare (holds path v) (fetchAllUrlsFromSitemap w) (λ _, holds path v)
    (holds path v).
Proof.
  intros p Hp. unfold fetchAllUrlsFromSitemap, mbind, Async_bind, axios_get, lift.
  destruct (sitemap_response w) as [parsed|e]; [|done].
  by destruct (sitemap_urls parsed).
Qed.

Lemma fetchNavigationStructure_kept path v :
  hoare (holds path v) (fetchNavigationStructure w)
    (λ nav p, holds path v p ∧ ∃ page, nav = navigation_structure page)
    (holds path v).
Proof.
  intros p Hp.
  unfold fetchNavigationStructure, mbind, Async_bind, axios_get, mret, Async_ret.
  destruct (nav_response w) as [page|e]; [|done]. eauto.
Qed.

(** From the download step on, a file outside [docs] changes only when the
    index is written. *)
Lemma fetch_and_download_kept path v :
  under DOCS_DIR path = false →
  hoare (holds path v)
    (allUrls ← fetchAllUrlsFromSitemap w;
     structure ← fetchNavigationStructure w;
     others ← downloadAndSaveDocs w allUrls structure;
     mret (structure, others))
    (λ _, holds path v) (holds path v).
Proof.
  intros Hout.
  eapply hoare_bind with (Q := λ _, holds path v);
    [apply fetchAllUrlsFromSitemap_kept|]. intros allUrls.
  eapply hoare_bind; [apply fetchNavigationStructure_kept|]. intros structure.
  intros p [Hp (page & ->)]. revert p Hp.
  eapply hoare_bind with (Q := λ _, holds path v);
    [by apply downloadAndSaveDocs_kept|]. intros others.
  by intros p Hp.
Qed.

Lemma main_as_steps p :
  main w p
  = (cleanPreviousBuild w ;;
     r ← (allUrls ← fetchAllUrlsFromSitemap w;
          structure ← fetchNavigationStructure w;
          others ← downloadAndSaveDocs w allUrls structure;
          mret (structure, others));
     generateReadme w r.1 r.2) p.
Proof.
  unfold main, mbind, Async_bind, mret, Async_ret.
  destruct (cleanPreviousBuild w p) as [[u|e] p1]; [|done].
  destruct (fetchAllUrlsFromSitemap w p1) as [[allUrls|e] p2]; [|done].
  destruct (fetchNavigationStructure w p2) as [[structure|e] p3]; [|done].
  by destruct (downloadAndSaveDocs w allUrls structure p3) as [[others|e] p4].
Qed.

Lemma main_outside_kept path v :
  outside_output path →
  hoare (holds path v) (main w) (λ _, holds path v) (holds path v).
Proof.
  intros [Hout Hne] p Hp. rewrite main_as_steps. revert p Hp.
  eapply hoare_bind with (Q := λ _, holds path v).
  { unfold cleanPreviousBuild.
    eapply hoare_bind with (Q := λ _, holds path v);
      [by apply fs_rm_tree_kept|]. intros u1.
    eapply hoare_bind with (Q := λ _, holds path v);
      [by apply fs_rm_file_kept|]. intros u2.
    apply fs_mkdir_kept. }
  intros u. eapply hoare_bind with (Q := λ _, holds path v);
    [by apply fetch_and_download_kept|].
  intros r. by apply fs_writeFile_kept.
Qed.

Lemma main_failure_no_index :
  rm_error w DOCS_DIR = None → rm_error w ROOT_README_PATH = None →
  hoare (λ _, True) (main w) (λ _ _, True) (holds ROOT_README_PATH None).
Proof.
  intros H1 H2 p Hp. rewrite main_as_steps. revert p Hp.
  eapply hoare_bind with (Q := λ _, holds ROOT_README_PATH None).
  { intros p _. unfold cleanPreviousBuild, mbind, Async_bind, fs_rm, fs_mkdir.
    rewrite H1. cbn [fs trace emit]. rewrite H2. cbn [fs trace emit].
    destruct (mkdir_error w DOCS_DIR); apply lookup_delete_eq. }
  intros u.
  eapply hoare_bind with (Q := λ _, holds ROOT_README_PATH None);
    [by apply fetch_and_download_kept|].
  intros r p Hp. unfold generateReadme, fs_writeFile.
  by destruct (write_error w ROOT_README_PATH).
Qed.
End main_leaves_alone.

(** X6. A run, whatever its outcome, never creates, changes or removes a
    file that is neither [README.md] nor at or below [docs]. *)
Theorem run_leaves_other_files_alone (w : World) (p : Proc) (path : jsstring) :
  (∀ ds, schedule w ds ≡ₚ ds) →
  under DOCS_DIR path = false → path ≠ ROOT_README_PATH →
  fs (run w p).2 !! path = fs p !! path.
Proof.
  intros Hperm Hout Hne.
  pose proof (main_outside_kept w Hperm path (fs p !! path)
                (conj Hout Hne) p eq_refl) as Hmain.
  unfold run. by destruct (main w p) as [[u|e] p'].
Qed.

(** [package.json] after a run over the earlier mirror. *)
Lemma run_leaves_other_files_alone_witness :
  fs (run serving_world earlier_mirror).2 !! js "package.json" = Some (js "{}").
Proof.
  rewrite (run_leaves_other_files_alone serving_world earlier_mirror
             (js "package.json") (λ ds, reflexivity ds) eq_refl).
  - reflexivity.
  - discriminate.
Defined.

(** X7. A run that ends with status 1 after its two [rm] calls succeeded
    leaves no index: [README.md] is removed at the start and written only
    by the last step. *)
Theorem failed_run_leaves_no_index (w : World) (p : Proc) :
  (∀ ds, schedule w ds ≡ₚ ds) →
  rm_error w DOCS_DIR = None → rm_error w ROOT_README_PATH = None →
  (run w p).1 = 1 →
  fs (run w p).2 !! ROOT_README_PATH = None.
Proof.
  intros Hperm H1 H2.
  pose proof (main_failure_no_index w Hperm H1 H2 p I) as Hmain.
  unfold run. by destruct (main w p) as [[u|e] p'].
Qed.

(** The index of the earlier mirror is gone when the write of the new one
    fails. *)
Lemma failed_run_leaves_no_index_witness :
  let w := {| rm_error := λ _, None; mkdir_error := λ _, None;
              write_error := λ path,
                if bool_decide (path = ROOT_README_PATH)
                then Some {| message := js "EACCES: permission denied" |}
                else None;
              sitemap_response := sitemap_response serving_world;
              nav_response := nav_response serving_world;
              doc_response := doc_response serving_world;
              schedule := reverse;
              now := now serving_world |} in
  fs (run w earlier_mirror).2 !! ROOT_README_PATH = None.
Proof.
  intros w.
  apply (failed_run_leaves_no_index w earlier_mirror
           reverse_Permutation eq_refl eq_refl).
  vm_compute. reflexivity.
Defined.

(** ** The shape of the navigation structure *)







Lemma link_file_shape a file :
  link_file a = Some file →
  ∃ h, attr_href a = Some h ∧ h ≠ []
       ∧ FileRef.href file = BASE_URL ++ h
       ∧ FileRef.slug file = basename h
       ∧ FileRef.title file = trim (anchor_text a).
Proof.
  unfold link_file. destruct (attr_href a) as [[|c h]|]; try done.
  intros [= <-]. by exists (c :: h).
Qed.


(** ** Empty slugs *)

Lemma strip_replace_ws_empty b s :
  strip_non_slug (replace_ws_from b s) = [] ↔
  Forall (λ c, is_whitespace c = false ∧ is_slug_char c = false)
    (if b then trimStart s else s).
Proof.
  revert b. induction s as [|c s IH]; intros b.
  - by destruct b.
  - simpl. destruct (is_whitespace c) eqn:Hc.
    + destruct b; simpl.
      * apply IH.
      * split; [done|]. intros [[? _] _]%Forall_cons. congruence.
    + assert ((if b then c :: s else c :: s) = c :: s) as -> by by destruct b.
      unfold strip_non_slug in *. simpl. destruct (is_slug_char c) eqn:Hs.
      * split; [done|]. intros [[_ ?] _]%Forall_cons. congruence.
      * rewrite (IH false), Forall_cons. split; [by intros ?|by intros [_ ?]].
Qed.

Lemma lower_unit_elem c : c ∈ lower_unit c ∨ 65 ≤ c ≤ 90 ∨ c = 304 ∨ c = 8490.
Proof. unfold lower_unit. unit_cases; left; apply list_elem_of_here. Qed.

(** X9. The slug of a text is empty exactly when its lower-case form has no
    whitespace and no character of [a-z0-9-]; one ASCII letter, digit,
    hyphen or whitespace in the text is enough for a slug that is not
    empty. *)
Theorem slugify_empty_iff (t : jsstring) :
  (slugify t = [] ↔
   Forall (λ c, is_whitespace c = false ∧ is_slug_char c = false)
     (toLowerCase t))
  ∧ (∀ c, c ∈ t →
       is_slug_char c = true ∨ is_whitespace c = true ∨ 65 ≤ c ≤ 90 →
       slugify t ≠ []).
Proof.
  assert (slugify t = [] ↔
          Forall (λ c, is_whitespace c = false ∧ is_slug_char c = false)
            (toLowerCase t)) as Hiff.
  { unfold slugify, replace_ws_runs. apply (strip_replace_ws_empty false). }
  split; [done|]. intros c Hc Hkind. rewrite Hiff, Forall_forall.
  intros Hall.
  assert (∃ c', c' ∈ toLowerCase t
                ∧ (is_slug_char c' = true ∨ is_whitespace c' = true))
    as (c' & Hc' & Hkind').
  { destruct Hkind as [Hs|[Hw|Hup]].
    - exists c. split; [|by left]. apply list_elem_of_bind. exists c.
      by rewrite (slug_char_lower c Hs), list_elem_of_singleton.
    - exists c. split; [|by right]. apply list_elem_of_bind. exists c.
      split; [|done]. destruct (lower_unit_elem c) as [?|Hrange]; [done|].
      exfalso. revert Hw. unfold is_whitespace.
      destruct Hrange as [?|[->| ->]]; unit_cases.
    - exists (c + 32). split.
      + apply list_elem_of_bind. exists c. split; [|done]. unfold lower_unit.
        unit_cases. apply list_elem_of_here.
      + left. apply slug_char_range. lia. }
  destruct (Hall c' Hc') as [Hw Hs]. destruct Hkind'; congruence.
Qed.

(** One digit among characters that do not count. *)
Lemma slugify_empty_iff_witness :
  slugify [12399; 50; 12376] ≠ [].
Proof.
  apply (proj2 (slugify_empty_iff [12399; 50; 12376]) 50).
  - apply list_elem_of_further, list_elem_of_here.
  - left. reflexivity.
Defined.

(** ** The place of a document, as the code means it *)

Lemma categorize_fields nav others url :
  dl_url (categorize nav others url).2 = url
  ∧ urlMdFile (categorize nav others url).2 = url ++ js ".md"
  ∧ dirPath (categorize nav others url).2
    = path_join [DOCS_DIR; bucket url nav]
  ∧ filePath (categorize nav others url).2
    = path_join [path_join [DOCS_DIR; bucket url nav]; basename url ++ js ".md"].
Proof.
  unfold categorize, bucket. by destruct (scan_categories url nav) as [[|c s]|].
Qed.

Lemma download_eq d url dir file :
  dl_url d = url → urlMdFile d = url ++ js ".md" → dirPath d = dir →
  filePath d = file →
  d = {| dl_url := url; urlMdFile := url ++ js ".md"; filePath := file;
         dirPath := dir |}.
Proof. destruct d. simpl. by intros -> -> -> ->. Qed.

(** X10. A URL that a category lists, when no category before it does and
    its slug is not empty, is written to
    [docs/<slug of that category>/<last segment of the URL>.md], in the
    directory [docs/<slug>], and the others stay as they are: categories
    after the first listing one play no part. *)
Theorem listed_url_goes_under_the_first_listing_category
    (page : list NavGroup) (others : list OtherFile.t) (url : jsstring)
    (before after : list Category.t) (cat : Category.t) :
  navigation_structure page = before ++ cat :: after →
  Forall (λ c, ¬ lists_url url c) before →
  lists_url url cat →
  Category.slug cat ≠ [] →
  categorize (navigation_structure page) others url
  = (others,
     {| dl_url := url;
        urlMdFile := url ++ js ".md";
        filePath := js "docs/" ++ Category.slug cat ++ js "/" ++ basename url
                    ++ js ".md";
        dirPath := js "docs/" ++ Category.slug cat |}).
Proof.
  intros Hnav Hbefore Hcat Hslug.
  assert (scan_categories url (navigation_structure page)
          = Some (Category.slug cat)) as Hscan.
  { apply scan_categories_first_match. exists before, cat, after. done. }
  pose proof (categorize_others (navigation_structure page) others url) as Ho.
  destruct (categorize_filePath (navigation_structure page) others url
              (navigation_structure_slugs page)) as [Hfile Hdir].
  destruct (categorize_fields (navigation_structure page) others url)
    as (Hurl & Hmd & _ & _).
  unfold bucket in Hfile, Hdir. rewrite Hscan in Ho, Hfile, Hdir.
  destruct (Category.slug cat) as [|c s] eqn:Hs; [done|]. cbn [falsy] in Ho.
  destruct (categorize (navigation_structure page) others url) as [o d].
  cbn [fst snd] in *. subst o. f_equal. by apply download_eq.
Qed.

(** The overview page under "Getting started". *)
Lemma listed_url_goes_under_the_first_listing_category_witness :
  filePath (categorize (navigation_structure [getting_started]) [] overview_url).2
  = js "docs/getting-started/overview.md".
Proof.
  assert (lists_url overview_url (group_category getting_started)) as Hlists.
  { eexists. split; [apply list_elem_of_here|reflexivity]. }
  rewrite (listed_url_goes_under_the_first_listing_category [getting_started]
             [] overview_url [] [] (group_category getting_started)
             eq_refl (Forall_nil_2 _) Hlists); [reflexivity|].
  vm_compute. discriminate.
Defined.

(** X11. A URL that no category lists is written to
    [docs/others/<last segment of the URL>.md], in the directory
    [docs/others], whatever the navigation structure is; its record joins
    the others unless one with its slug is there. *)
Theorem unlisted_url_goes_under_others
    (nav : list Category.t) (others : list OtherFile.t) (url : jsstring) :
  Forall (λ c, ¬ lists_url url c) nav →
  categorize nav others url
  = (if bool_decide (basename url ∈ OtherFile.slug <$> others) then others
     else others ++ [ {| OtherFile.slug := basename url;
                         OtherFile.title := basename url |} ],
     {| dl_url := url;
        urlMdFile := url ++ js ".md";
        filePath := js "docs/others/" ++ basename url ++ js ".md";
        dirPath := js "docs/others" |}).
Proof.
  intros Hnone%scan_categories_none.
  pose proof (categorize_others nav others url) as Ho.
  destruct (categorize_fields nav others url) as (Hurl & Hmd & Hdir & Hfile).
  unfold bucket in Hdir, Hfile. rewrite Hnone in Ho, Hdir, Hfile.
  cbn [falsy] in Ho. rewrite existsb_slug in Ho.
  assert (path_join [DOCS_DIR; js "others"] = js "docs/others") as Hd
    by (vm_compute; reflexivity).
  rewrite Hd in Hdir, Hfile.
  pose proof (path_join_plain [DOCS_DIR; js "others"]
                (basename url ++ js ".md")) as Hjoin.
  cbn [join_slash app] in Hjoin.
  assert (DOCS_DIR ++ SLASH :: js "others" = js "docs/others") as Hlit
    by (vm_compute; reflexivity).
  rewrite Hlit in Hjoin. rewrite Hjoin in Hfile; [|done|..].
  - destruct (categorize nav others url) as [o d]. cbn [fst snd] in *.
    subst o. f_equal.
    by apply download_eq.
  - constructor; [apply docs_plain|]. constructor; [apply others_plain|done].
  - apply md_file_plain, basename_no_slash.
Qed.

(** A page of the SDK that the sidebar does not link. *)
Lemma unlisted_url_goes_under_others_witness :
  filePath (categorize (navigation_structure [getting_started]) []
              (URL_PREFIX ++ js "sdk/sdk-python")).2
  = js "docs/others/sdk-python.md".
Proof.
  rewrite (unlisted_url_goes_under_others (navigation_structure [getting_started])
             [] (URL_PREFIX ++ js "sdk/sdk-python")); [reflexivity|].
  apply scan_categories_none. reflexivity.
Defined.

(** ** Paths inside the output directory *)

Lemma drop_slashes_head s c t : drop_slashes s = c :: t → c ≠ SLASH.
Proof.
  induction s as [|d s IH]; [done|]. simpl.
  destruct (N.eqb_spec d SLASH) as [->|Hd]; [done|]. by intros [= <- _].
Qed.

Lemma drop_slashes_nil s : drop_slashes s = [] → Forall (λ c, c = SLASH) s.
Proof.
  induction s as [|d s IH]; [done|]. simpl.
  destruct (N.eqb_spec d SLASH) as [->|Hd]; [|done]. by constructor; auto.
Qed.

Lemma drop_slashes_app s t :
  drop_slashes s ≠ [] → drop_slashes (s ++ t) = drop_slashes s ++ t.
Proof.
  induction s as [|d s IH]; [done|]. simpl.
  by destruct (N.eqb_spec d SLASH) as [->|Hd].
Qed.

Lemma take_to_slash_app_slash s t :
  take_to_slash (s ++ SLASH :: t) = take_to_slash s.
Proof.
  induction s as [|d s IH]; simpl; [done|].
  destruct (N.eqb_spec d SLASH) as [->|Hd]; [done|]. by rewrite IH.
Qed.

Lemma basename_nil s : basename s = [] → Forall (λ c, c = SLASH) s.
Proof.
  unfold basename. intros Hb%(f_equal reverse).
  rewrite reverse_involutive in Hb. cbn in Hb.
  destruct (drop_slashes (reverse s)) as [|c t] eqn:Hd.
  - apply drop_slashes_nil in Hd. rewrite Forall_forall in *.
    intros x Hx. apply Hd. by apply elem_of_reverse.
  - apply drop_slashes_head in Hd. simpl in Hb.
    by destruct (N.eqb_spec c SLASH).
Qed.

(** What stands before the last separator has no part in the last
    segment. *)
Lemma basename_after_slash b r :
  basename r ≠ [] → basename (b ++ SLASH :: r) = basename r.
Proof.
  intros Hr. unfold basename in *.
  assert (drop_slashes (reverse r) ≠ []) as Hd by (by intros Heq; rewrite Heq in Hr).
  rewrite reverse_app, reverse_cons, <- app_assoc. cbn [app].
  by rewrite drop_slashes_app, take_to_slash_app_slash.
Qed.

(** X12. Whatever the titles of the navigation page and whatever the URL,
    the document is written one level below the directory the loop makes
    for it, and that directory is one level below [docs]: no title and no
    URL leads outside the output directory or onto the index. A URL with
    the prefix of the sitemap filter always has a file name. *)
Theorem documents_stay_inside_docs
    (page : list NavGroup) (others : list OtherFile.t) (url : jsstring) :
  let d := (categorize (navigation_structure page) others url).2 in
  (∃ dir, plain_segment dir
          ∧ dirPath d = js "docs/" ++ dir
          ∧ filePath d = dirPath d ++ js "/" ++ basename url ++ js ".md")
  ∧ plain_segment (basename url ++ js ".md")
  ∧ under DOCS_DIR (filePath d) = true
  ∧ filePath d ≠ ROOT_README_PATH
  ∧ (startsWith url URL_PREFIX = true → basename url ≠ []).
Proof.
  intros d.
  destruct (categorize_filePath (navigation_structure page) others url
              (navigation_structure_slugs page)) as [Hfile Hdir].
  fold d in Hfile, Hdir.
  assert (under DOCS_DIR (filePath d) = true) as Hunder.
  { rewrite Hfile. unfold under. apply orb_true_iff. right.
    apply startsWith_prefix. by eexists. }
  split_and!.
  - exists (bucket url (navigation_structure page)). split_and!; [|done|].
    + unfold bucket.
      destruct (scan_categories url (navigation_structure page))
        as [[|c s]|] eqn:Hscan; try apply others_plain.
      apply scan_categories_first_match in Hscan
        as (before & cat & after & Hnav & _ & _ & Hslug).
      apply slug_plain; [done|]. rewrite <- Hslug.
      pose proof (navigation_structure_slugs page) as Hslugs.
      rewrite Hnav in Hslugs. apply Forall_app in Hslugs as [_ Hslugs].
      by inversion_clear Hslugs.
    + rewrite Hfile, Hdir. by rewrite <- !app_assoc.
  - apply md_file_plain, basename_no_slash.
  - done.
  - intros Heq. rewrite Heq in Hunder. discriminate Hunder.
  - intros [k ->]%startsWith_prefix Hb%basename_nil.
    apply Forall_app in Hb as [Hb _]. vm_compute in Hb.
    by inversion_clear Hb.
Qed.

(** The page at the prefix itself is written as [claude-code.md]. *)
Lemma documents_stay_inside_docs_witness :
  basename URL_PREFIX ≠ []
  ∧ filePath (categorize (navigation_structure [hajimeni]) [] URL_PREFIX).2
    ≠ ROOT_README_PATH.
Proof.
  pose proof (documents_stay_inside_docs [hajimeni] [] URL_PREFIX)
    as (_ & _ & _ & Hindex & Hname).
  split; [exact (Hname eq_refl)|exact Hindex].
Defined.

(** ** The links of the index and the files *)

Lemma first_occurrences_from_sub seen l x :
  x ∈ first_occurrences_from seen l → x ∈ l.
Proof.
  revert seen. induction l as [|y l IH]; intros seen; simpl; [done|].
  case_bool_decide.
  - intros Hx%IH. by apply list_elem_of_further.
  - intros [->|Hx%IH]%elem_of_cons; [apply list_elem_of_here|].
    by apply list_elem_of_further.
Qed.

Lemma navigation_structure_file page cat file :
  cat ∈ navigation_structure page → file ∈ Category.files cat →
  ∃ h, FileRef.href file = BASE_URL ++ h ∧ FileRef.slug file = basename h.
Proof.
  rewrite navigation_structure_titled.
  intros (g & -> & _)%list_elem_of_fmap
         (a & _ & (h & _ & _ & Hhref & Hslug & _)%link_file_shape)%list_elem_of_omap.
  by exists h.
Qed.

(** X13. The link of the index to a listed file names the file that is
    written: for a link whose [href] is an absolute path with a last
    segment, in the first category that lists its URL, with a slug that is
    not empty, the target of the index line is [./] followed by the path
    the document is written to. *)
Theorem category_link_names_the_written_file
    (page : list NavGroup) (others : list OtherFile.t)
    (before after : list Category.t) (cat : Category.t) (file : FileRef.t)
    (r : jsstring) :
  navigation_structure page = before ++ cat :: after →
  Forall (λ c, ¬ lists_url (FileRef.href file) c) before →
  file ∈ Category.files cat →
  Category.slug cat ≠ [] →
  FileRef.href file = BASE_URL ++ SLASH :: r →
  basename r ≠ [] →
  category_link cat file
  = js "- [" ++ FileRef.title file ++ js "](./"
    ++ filePath (categorize (navigation_structure page) others
                   (FileRef.href file)).2
    ++ js ")" ++ LF.
Proof.
  intros Hnav Hbefore Hfile Hslug Hhref Hr.
  assert (scan_categories (FileRef.href file) (navigation_structure page)
          = Some (Category.slug cat)) as Hscan.
  { apply scan_categories_first_match. exists before, cat, after.
    split_and!; try done. by exists file. }
  destruct (categorize_filePath (navigation_structure page) others
              (FileRef.href file) (navigation_structure_slugs page))
    as [Hpath _].
  unfold bucket in Hpath. rewrite Hscan in Hpath.
  destruct (navigation_structure_file page cat file) as (h & Hh & Hs);
    [rewrite Hnav, elem_of_app; right; apply list_elem_of_here|done|].
  rewrite Hhref in Hh. apply app_inv_head in Hh. subst h.
  assert (FileRef.slug file = basename r) as Hs'.
  { rewrite Hs. by apply (basename_after_slash []). }
  rewrite Hhref, (basename_after_slash BASE_URL r Hr) in Hpath.
  rewrite Hhref. unfold category_link, DOCS_DIR, LF. rewrite Hs'.
  destruct (Category.slug cat) as [|c s] eqn:Hc; [done|].
  rewrite Hpath. by js_norm.
Qed.

(** The link to the overview page and the file of the overview page. *)
Lemma category_link_names_the_written_file_witness :
  category_link (group_category getting_started)
    {| FileRef.slug := js "overview"; FileRef.title := js "Overview";
       FileRef.href := overview_url |}
  = js "- [Overview](./docs/getting-started/overview.md)" ++ LF.
Proof.
  rewrite (category_link_names_the_written_file [getting_started] [] [] []
             (group_category getting_started) _
             (js "en/docs/claude-code/overview") eq_refl (Forall_nil_2 _)).
  - reflexivity.
  - apply list_elem_of_here.
  - vm_compute. discriminate.
  - reflexivity.
  - vm_compute. discriminate.
Defined.

(** X14. Every record of the others names a file that a download of the
    run is written to: the line of the index for it links
    [./docs/others/<slug>.md], and some URL of the run has exactly this
    target. *)
Theorem other_link_names_a_written_file
    (page : list NavGroup) (urls : list jsstring) (o : OtherFile.t) :
  o ∈ (plan (navigation_structure page) [] urls).1 →
  ∃ d, d ∈ (plan (navigation_structure page) [] urls).2
       ∧ dl_url d ∈ urls
       ∧ filePath d = js "docs/others/" ++ OtherFile.slug o ++ js ".md"
       ∧ other_link o
         = js "- [" ++ OtherFile.slug o ++ js "](./" ++ filePath d ++ js ")" ++ LF.
Proof.
  intros Ho. rewrite (plan_others_from _ [] urls) in Ho. cbn [app] in Ho.
  apply list_elem_of_fmap in Ho as (s & -> & Hs).
  apply first_occurrences_from_sub, list_elem_of_fmap in Hs
    as (url & -> & Hurl).
  apply list_elem_of_In, filter_In in Hurl as [Hurl%list_elem_of_In Hfalsy].
  pose proof (plan_downloads (navigation_structure page) [] urls) as Hds.
  apply list_elem_of_lookup in Hurl as [i Hi].
  destruct (Forall2_lookup_l _ _ _ _ _ Hds Hi) as (d & Hd & Hu & _).
  pose proof (plan_paths (navigation_structure page) [] urls
                (navigation_structure_slugs page)) as Hpaths.
  rewrite Forall_forall in Hpaths.
  apply list_elem_of_lookup_2 in Hd, Hi.
  specialize (Hpaths d Hd). rewrite Hu in Hpaths.
  assert (bucket url (navigation_structure page) = js "others") as Hb.
  { unfold bucket.
    by destruct (scan_categories url (navigation_structure page)) as [[|c s]|]. }
  rewrite Hb in Hpaths. exists d. split_and!; [done|by rewrite Hu| |].
  - rewrite Hpaths. cbn [other_file OtherFile.slug]. by js_norm.
  - rewrite Hpaths. unfold other_link, DOCS_DIR, LF.
    cbn [other_file OtherFile.slug OtherFile.title]. by js_norm.
Qed.

(** The record of the two SDK pages named [overview]. *)
Lemma other_link_names_a_written_file_witness :
  ∃ d, filePath d = js "docs/others/overview.md"
       ∧ dl_url d ∈ [URL_PREFIX ++ js "sdk/overview"; URL_PREFIX ++ js "mcp/overview"].
Proof.
  destruct (other_link_names_a_written_file [getting_started]
              [URL_PREFIX ++ js "sdk/overview"; URL_PREFIX ++ js "mcp/overview"]
              (other_file (js "overview")))
    as (d & _ & Hurl & Hpath & _).
  - vm_compute. apply list_elem_of_here.
  - exists d. split; [exact Hpath|exact Hurl].
Defined.

(** ** The files after a complete run *)

Lemma foldl_settle_fs_refused w ds m path :
  Forall (λ d, filePath d = path → ∃ e, doc_response w (urlMdFile d) = Throw e)
    ds →
  foldl (settle_fs w) m ds !! path = m !! path.
Proof.
  intros Hds. revert m. induction Hds as [|d ds Hd _ IH]; intros m; [done|].
  simpl. rewrite IH. unfold settle_fs, download_outcome.
  destruct (doc_response w (urlMdFile d)) as [data|e] eqn:Hresp; [|done].
  destruct (write_error w (filePath d)); [done|].
  rewrite lookup_insert_ne; [done|]. intros Hp.
  by destruct (Hd Hp) as [e He].
Qed.

(** X15. After a complete run, the file of a served document holds the body
    of the response, code unit by code unit, provided every URL written to
    the same path has the same address. *)
Theorem served_document_is_written_verbatim
    (w : World) (urls : list jsstring) (page : list NavGroup) (p : Proc)
    (d : Download) (data : jsstring) :
  orchestration_succeeds w urls page →
  schedule w (plan (navigation_structure page) [] urls).2
    ≡ₚ (plan (navigation_structure page) [] urls).2 →
  d ∈ (plan (navigation_structure page) [] urls).2 →
  (∀ d', d' ∈ (plan (navigation_structure page) [] urls).2 →
         filePath d' = filePath d → urlMdFile d' = urlMdFile d) →
  doc_response w (urlMdFile d) = Ok data →
  write_error w (filePath d) = None →
  (run w p).1 = 0 ∧ fs (run w p).2 !! filePath d = Some data.
Proof.
  intros Hok Hperm Hd Hsame Hresp Hwrite.
  rewrite (run_completes _ _ _ _ Hok). split; [done|].
  destruct (written_in_final_state w urls page p d data Hperm Hd)
    as (d' & data' & Hd' & Hp & Ho & Hl).
  { unfold download_outcome. by rewrite Hresp, Hwrite. }
  cbn [snd]. rewrite Hl. f_equal.
  unfold download_outcome in Ho. rewrite (Hsame d' Hd' Hp), Hresp in Ho.
  destruct (write_error w (filePath d')); by simplify_eq.
Qed.

(** The overview page after a run against the serving site. *)
Lemma served_document_is_written_verbatim_witness :
  fs (run serving_world earlier_mirror).2 !! js "docs/getting-started/overview.md"
  = Some (js "# " ++ overview_url ++ js ".md").
Proof.
  refine (proj2 (served_document_is_written_verbatim serving_world
    [overview_url; quickstart_url] [getting_started] earlier_mirror
    (categorize (navigation_structure [getting_started]) [] overview_url).2
    (js "# " ++ overview_url ++ js ".md") _ _ _ _ eq_refl eq_refl)).
  - split_and!; try reflexivity.
    + eexists. split; reflexivity.
    + vm_compute. repeat constructor.
  - reflexivity.
  - vm_compute. apply list_elem_of_here.
  - intros d' Hd' Hpath. apply list_elem_of_In in Hd'. vm_compute in Hd'.
    destruct Hd' as [<-|[<-|[]]];
      first [reflexivity | vm_compute in Hpath; discriminate Hpath].
Defined.

(** X16. After a complete run, a path whose every request was refused holds
    no file, also when the mirror of an earlier run had one: the earlier
    copy is removed at the start and nothing is written in its place. *)
Theorem refused_document_is_absent
    (w : World) (urls : list jsstring) (page : list NavGroup) (p : Proc)
    (d : Download) :
  orchestration_succeeds w urls page →
  schedule w (plan (navigation_structure page) [] urls).2
    ≡ₚ (plan (navigation_structure page) [] urls).2 →
  d ∈ (plan (navigation_structure page) [] urls).2 →
  (∀ d', d' ∈ (plan (navigation_structure page) [] urls).2 →
         filePath d' = filePath d →
         ∃ e, doc_response w (urlMdFile d') = Throw e) →
  (run w p).1 = 0 ∧ fs (run w p).2 !! filePath d = None.
Proof.
  intros Hok Hperm Hd Hrefused.
  rewrite (run_completes _ _ _ _ Hok). split; [done|].
  pose proof (plan_paths_under_docs page [] urls) as Hdocs.
  rewrite Forall_forall in Hdocs. specialize (Hdocs d Hd).
  unfold final_state, main_state, emit.
  destruct (plan (navigation_structure page) [] urls) as [others ds].
  cbn [fs trace fst snd] in *.
  rewrite lookup_insert_ne.
  2:{ intros Heq. rewrite <- Heq in Hdocs. discriminate Hdocs. }
  rewrite foldl_settle_fs_refused; [by apply cleaned_no_documents|].
  apply Forall_forall. intros d' Hd'. apply Hrefused. by rewrite <- Hperm.
Qed.

(** The overview page of the earlier mirror after a run against the
    refusing site. *)
Lemma refused_document_is_absent_witness :
  fs earlier_mirror !! js "docs/getting-started/overview.md" = Some (js "# old")
  ∧ fs (run refusing_world earlier_mirror).2
      !! js "docs/getting-started/overview.md" = None.
Proof.
  split; [reflexivity|].
  refine (proj2 (refused_document_is_absent refusing_world
    [overview_url; quickstart_url] [getting_started] earlier_mirror
    (categorize (navigation_structure [getting_started]) [] overview_url).2
    _ _ _ _)).
  - split_and!; try reflexivity.
    + eexists. split; reflexivity.
    + vm_compute. repeat constructor.
  - apply reverse_Permutation.
  - vm_compute. apply list_elem_of_here.
  - intros d' _ _. eexists. reflexivity.
Defined.

(** ** The requests of a complete run *)

Lemma requests_app evs1 evs2 :
  requests (evs1 ++ evs2) = requests evs1 ++ requests evs2.
Proof. apply omap_app. Qed.

Lemma requests_loop_effects ds : requests (loop_effects ds) = urlMdFile <$> ds.
Proof.
  induction ds as [|d ds IH]; [done|].
  unfold loop_effects. rewrite bind_cons, requests_app, fmap_cons.
  fold (loop_effects ds). by rewrite IH.
Qed.

Lemma requests_settle_events w ds : requests (ds ≫= settle_events w) = [].
Proof.
  induction ds as [|d ds IH]; [done|].
  rewrite bind_cons, requests_app, IH, app_nil_r.
  unfold settle_events. by destruct (download_outcome w d).
Qed.

(** X17. A complete run sends the request for the sitemap, the one for the
    navigation page and then, for every URL of the sitemap output in order
    and once per occurrence, the request for that URL followed by [.md];
    it sends no other request and repeats none, whatever the responses
    are. *)
Theorem requests_of_a_complete_run
    (w : World) (urls : list jsstring) (page : list NavGroup) (p : Proc) :
  orchestration_succeeds w urls page →
  requests (trace (run w p).2)
  = requests (trace p) ++ [SITEMAP_URL; NAV_PAGE_URL]
    ++ ((λ url, url ++ js ".md") <$> urls).
Proof.
  intros Hok. rewrite (run_completes _ _ _ _ Hok).
  unfold final_state, main_state, emit.
  pose proof (plan_downloads (navigation_structure page) [] urls) as Hds.
  destruct (plan (navigation_structure page) [] urls) as [others ds].
  cbn [fs trace fst snd] in *.
  assert (urlMdFile <$> ds = (λ url, url ++ js ".md") <$> urls) as Hmds.
  { clear -Hds. induction Hds as [|url d urls ds [_ Hmd] _ IH]; [done|].
    rewrite !fmap_cons. by rewrite Hmd, IH. }
  rewrite !requests_app, requests_loop_effects, requests_settle_events, Hmds.
  cbn [requests omap list_omap app]. by rewrite !app_nil_r.
Qed.

(** The two pages of the sample sitemap, every download refused. *)
Lemma requests_of_a_complete_run_witness :
  requests (trace (run refusing_world fresh).2)
  = [SITEMAP_URL; NAV_PAGE_URL; overview_url ++ js ".md";
     quickstart_url ++ js ".md"].
Proof.
  refine (requests_of_a_complete_run refusing_world
            [overview_url; quickstart_url] [getting_started] fresh _).
  split_and!; try reflexivity.
  - eexists. split; reflexivity.
  - vm_compute. repeat constructor.
Defined.

(** X18. The index of a complete run is fixed by the navigation page, the
    URLs of the sitemap and the clock: the responses to the document
    requests have no part in it, so a document whose download failed is
    linked like any other. *)
Theorem index_does_not_depend_on_the_downloads
    (w : World) (urls : list jsstring) (page : list NavGroup) (p : Proc)
    (responses : jsstring → result jsstring) :
  orchestration_succeeds w urls page →
  fs (run (with_docs w responses) p).2 !! ROOT_README_PATH
  = Some (readme_content (now w) (navigation_structure page)
            (plan (navigation_structure page) [] urls).1).
Proof.
  intros Hok.
  assert (orchestration_succeeds (with_docs w responses) urls page) as Hok'
    by exact Hok.
  rewrite (run_completes _ _ _ _ Hok'). unfold final_state, main_state, emit.
  destruct (plan (navigation_structure page) [] urls) as [others ds].
  cbn [fs trace fst snd]. apply lookup_insert_eq.
Qed.

(** The index of the refusing site is the one of the serving site. *)
Lemma index_does_not_depend_on_the_downloads_witness :
  fs (run (with_docs serving_world (doc_response refusing_world)) fresh).2
    !! ROOT_README_PATH
  = fs (run serving_world fresh).2 !! ROOT_README_PATH.
Proof.
  assert (orchestration_succeeds serving_world [overview_url; quickstart_url]
            [getting_started]) as Hok.
  { split_and!; try reflexivity.
    - eexists. split; reflexivity.
    - vm_compute. repeat constructor. }
  rewrite (index_does_not_depend_on_the_downloads serving_world _ _ fresh
             (doc_response refusing_world) Hok).
  rewrite <- (index_does_not_depend_on_the_downloads serving_world _ _ fresh
                (doc_response serving_world) Hok).
  reflexivity.
Defined.

(** ** A failing [mkdir] *)

Lemma for_of_app {A S} (body : S → A → Async S) (l1 l2 : list A) st p :
  for_of body (l1 ++ l2) st p
  = match for_of body l1 st p with
    | (Ok st', p') => for_of body l2 st' p'
    | (Throw e, p') => (Throw e, p')
    end.
Proof.
  revert st p. induction l1 as [|x l1 IH]; intros st p; [done|].
  simpl. unfold mbind, Async_bind.
  destruct (body st x p) as [[st1|e] p1]; [apply IH|done].
Qed.

(** X19. Unlike a failing download, a failing [mkdir] of the loop ends the
    run: the status is 1, the error of the [mkdir] is the one reported, the
    documents of the URLs before it have been requested and no URL after
    them is ever requested. *)
Theorem failing_mkdir_ends_the_run
    (w : World) (p : Proc) (page : list NavGroup)
    (pre post : list jsstring) (url : jsstring) (e : Error) :
  rm_error w DOCS_DIR = None → rm_error w ROOT_README_PATH = None →
  mkdir_error w DOCS_DIR = None →
  (∃ parsed, sitemap_response w = Ok parsed
             ∧ sitemap_urls parsed = Ok (pre ++ url :: post)) →
  nav_response w = Ok page →
  Forall (λ d, mkdir_error w (dirPath d) = None)
    (plan (navigation_structure page) [] pre).2 →
  mkdir_error w
    (dirPath (categorize (navigation_structure page)
                (plan (navigation_structure page) [] pre).1 url).2) = Some e →
  (run w p).1 = 1
  ∧ FatalError e ∈ trace (run w p).2
  ∧ requests (trace (run w p).2)
    = requests (trace p) ++ [SITEMAP_URL; NAV_PAGE_URL]
      ++ ((λ u, u ++ js ".md") <$> pre).
Proof.
  intros H1 H2 H3 Hsm Hnav Hmk He.
  pose proof (plan_downloads (navigation_structure page) [] pre) as Hds.
  assert (urlMdFile <$> (plan (navigation_structure page) [] pre).2
          = (λ u, u ++ js ".md") <$> pre) as Hmds.
  { clear -Hds. induction Hds as [|u d us ds [_ Hmd] _ IH]; [done|].
    rewrite !fmap_cons. by rewrite Hmd, IH. }
  assert (main w p
          = (Throw e,
             {| fs := cleaned (fs p);
                trace := trace p
                         ++ [Rm DOCS_DIR; Rm ROOT_README_PATH; Mkdir DOCS_DIR;
                             HttpGet SITEMAP_URL; HttpGet NAV_PAGE_URL]
                         ++ loop_effects
                              (plan (navigation_structure page) [] pre).2 |}))
    as Hmain.
  { unfold main.
    erewrite bind_Ok; [|by apply cleanPreviousBuild_returns].
    erewrite bind_Ok; [|by apply fetchAllUrlsFromSitemap_Ok].
    erewrite bind_Ok; [|apply fetchNavigationStructure_Ok; eauto].
    unfold downloadAndSaveDocs, mbind at 1 2, Async_bind at 1 2.
    rewrite for_of_app, (for_of_loop_returns w _ pre) by done.
    cbn [for_of otherFiles downloadPromises app].
    unfold mbind at 1, Async_bind at 1, loop_body.
    cbn [otherFiles].
    destruct (categorize (navigation_structure page)
                (plan (navigation_structure page) [] pre).1 url) as [o d].
    cbn [snd] in He. unfold mbind, Async_bind, fs_mkdir. rewrite He.
    unfold emit. cbn [fs trace]. by rewrite <- !app_assoc. }
  unfold run. rewrite Hmain. unfold emit. cbn [fst snd fs trace]. split_and!.
  - done.
  - rewrite !elem_of_app, !elem_of_cons. auto.
  - rewrite !requests_app, requests_loop_effects, Hmds.
    cbn [requests omap list_omap app]. by rewrite !app_nil_r.
Qed.

(** The directory of the others cannot be made: the overview page is
    requested, the page after it is not. *)
Lemma failing_mkdir_ends_the_run_witness :
  let w := {| rm_error := λ _, None;
              mkdir_error := λ path,
                if bool_decide (path = js "docs/others")
                then Some {| message := js "EACCES: permission denied" |}
                else None;
              write_error := λ _, None;
              sitemap_response :=
                Ok (sitemap_of [overview_url; URL_PREFIX ++ js "hooks";
                                quickstart_url]);
              nav_response := Ok [getting_started];
              doc_response := doc_response serving_world;
              schedule := λ ds, ds;
              now := now serving_world |} in
  (run w fresh).1 = 1
  ∧ requests (trace (run w fresh).2)
    = [SITEMAP_URL; NAV_PAGE_URL; overview_url ++ js ".md"].
Proof.
  intros w.
  destruct (failing_mkdir_ends_the_run w fresh [getting_started]
              [overview_url] [quickstart_url] (URL_PREFIX ++ js "hooks")
              {| message := js "EACCES: permission denied" |})
    as (Hexit & _ & Hreq); try reflexivity.
  - eexists. split; reflexivity.
  - vm_compute. repeat constructor.
  - split; [exact Hexit|exact Hreq].
Defined.

(** ** Nothing but the documents of the sitemap *)

Lemma foldl_settle_fs_origin w ds m path data :
  foldl (settle_fs w) m ds !! path = Some data →
  m !! path = Some data
  ∨ ∃ d, d ∈ ds ∧ filePath d = path ∧ download_outcome w d = inr data.
Proof.
  revert m. induction ds as [|d ds IH]; intros m; [by left|].
  simpl. intros [Hm|(d' & Hd' & Hp & Ho)]%IH.
  - unfold settle_fs in Hm. destruct (download_outcome w d) as [e|body] eqn:Ho;
      [by left|].
    destruct (decide (filePath d = path)) as [Hp|Hp].
    + rewrite Hp, lookup_insert_eq in Hm. simplify_eq. right.
      exists d. split_and!; [apply list_elem_of_here|done..].
    + rewrite lookup_insert_ne in Hm by done. by left.
  - right. exists d'. split_and!; [by apply list_elem_of_further|done..].
Qed.

(** X20. After a complete run, every file at or below [docs] is the
    document of a URL of the sitemap output: it is at the path of that URL
    and holds the body of the response to its request. Nothing of an
    earlier mirror is left, and nothing else is put there. *)
Theorem every_file_in_docs_is_a_document_of_the_sitemap
    (w : World) (urls : list jsstring) (page : list NavGroup) (p : Proc)
    (path data : jsstring) :
  orchestration_succeeds w urls page →
  schedule w (plan (navigation_structure page) [] urls).2
    ≡ₚ (plan (navigation_structure page) [] urls).2 →
  under DOCS_DIR path = true →
  fs (run w p).2 !! path = Some data →
  ∃ url, url ∈ urls
    ∧ path = js "docs/" ++ bucket url (navigation_structure page) ++ js "/"
             ++ basename url ++ js ".md"
    ∧ doc_response w (url ++ js ".md") = Ok data.
Proof.
  intros Hok Hperm Hunder. rewrite (run_completes _ _ _ _ Hok).
  pose proof (plan_downloads (navigation_structure page) [] urls) as Hds.
  pose proof (plan_paths (navigation_structure page) [] urls
                (navigation_structure_slugs page)) as Hpaths.
  unfold final_state, main_state, emit.
  destruct (plan (navigation_structure page) [] urls) as [others ds].
  cbn [fs trace fst snd] in *.
  rewrite lookup_insert_ne.
  2:{ intros <-. discriminate Hunder. }
  intros [Hold|(d & Hd & Hp & Ho)]%foldl_settle_fs_origin.
  { by rewrite cleaned_no_documents in Hold. }
  rewrite Hperm in Hd. rewrite Forall_forall in Hpaths.
  specialize (Hpaths d Hd).
  apply list_elem_of_lookup in Hd as [i Hi].
  destruct (Forall2_lookup_r _ _ _ _ _ Hds Hi) as (url & Hurl & Hu & Hmd).
  exists url. rewrite <- Hu, <- Hp. split_and!.
  - rewrite Hu. by apply list_elem_of_lookup_2 in Hurl.
  - done.
  - rewrite Hu, <- Hmd. unfold download_outcome in Ho.
    destruct (doc_response w (urlMdFile d)) as [body|]; [|done].
    destruct (write_error w (filePath d)); by simplify_eq.
Qed.

(** The file of the overview page is the only file of its directory that
    the run over the earlier mirror can leave. *)
Lemma every_file_in_docs_is_a_document_of_the_sitemap_witness :
  ∃ url, url ∈ [overview_url; quickstart_url]
    ∧ doc_response serving_world (url ++ js ".md")
      = Ok (js "# " ++ overview_url ++ js ".md").
Proof.
  destruct (every_file_in_docs_is_a_document_of_the_sitemap serving_world
              [overview_url; quickstart_url] [getting_started] earlier_mirror
              (js "docs/getting-started/overview.md")
              (js "# " ++ overview_url ++ js ".md"))
    as (url & Hurl & _ & Hresp); try reflexivity.
  - split_and!; try reflexivity.
    + eexists. split; reflexivity.
    + vm_compute. repeat constructor.
  - exists url. split; [exact Hurl|exact Hresp].
Defined.

(** ** The navigation structure, group by group *)

(** X21. The navigation structure has one category for every sidebar group
    with a title, in the order of the page: groups are neither merged nor
    reordered, also when two of them have the same title. The files of a
    category are the links of its group with an [href] that is not empty,
    in the order of the group. *)
Theorem navigation_structure_keeps_titled_groups_in_order
    (page : list NavGroup) :
  navigation_structure page
  = (λ g, {| Category.title := trim (mjoin (sidebar_titles g));
             Category.slug := slugify (trim (mjoin (sidebar_titles g)));
             Category.files := omap link_file (sidebar_links g) |})
    <$> List.filter
          (λ g, negb (bool_decide (trim (mjoin (sidebar_titles g)) = [])))
          page
  ∧ (∀ a, link_file a = None ↔ attr_href a = None ∨ attr_href a = Some [])
  ∧ (∀ page', navigation_structure (page ++ page')
              = navigation_structure page ++ navigation_structure page').
Proof.
  split_and!.
  - apply navigation_structure_titled.
  - intros a. unfold link_file.
    destruct (attr_href a) as [[|c h]|]; split; try done; auto.
    by intros [?|?].
  - intros page'. apply navigation_structure_app.
Qed.

(** ** The others and the navigation *)

(** Where every category that lists a URL of the run has a slug that is not
    empty, the others that [downloadAndSaveDocs] returns are the records of
    the URLs that match no navigation href: one record for each of their
    file names, with the file name as slug and as title, in the order of
    the first occurrences; no URL that a category lists has a record on its
    own account, and the section "Others" of the index has one line for
    each record, with the file name as text and in the target. *)
Theorem others_are_the_urls_without_navigation_href
    (w : World) (nav : list Category.t) (urls : list jsstring) (p : Proc) :
  Forall (λ d, mkdir_error w (dirPath d) = None) (plan nav [] urls).2 →
  (∀ url category, url ∈ urls → category ∈ nav → lists_url url category →
     Category.slug category ≠ []) →
  (downloadAndSaveDocs w urls nav p).1 = Ok (others_of_unlisted nav urls)
  ∧ NoDup (OtherFile.slug <$> others_of_unlisted nav urls)
  ∧ Forall (λ o, OtherFile.title o = OtherFile.slug o)
      (others_of_unlisted nav urls)
  ∧ (∀ slug, slug ∈ OtherFile.slug <$> others_of_unlisted nav urls
             ↔ ∃ url, url ∈ urls ∧ unlisted nav url ∧ basename url = slug)
  ∧ others_section (others_of_unlisted nav urls)
    = match first_occurrences (basename <$> filter (unlisted nav) urls) with
      | [] => []
      | slugs => js "## Others" ++ LF ++ LF
                 ++ (slugs ≫= λ s, js "- [" ++ s ++ js "](./docs/others/" ++ s
                                   ++ js ".md)" ++ LF)
                 ++ LF
      end.
Proof.
  intros Hok Hslug.
  assert (∀ slugs : list jsstring,
            OtherFile.slug <$> (other_file <$> slugs) = slugs) as Hslugs.
  { intros slugs. rewrite <- list_fmap_compose. apply list_fmap_id. }
  unfold others_of_unlisted. rewrite Hslugs. split_and!.
  5:{ rewrite others_section_other_files.
      by destruct (first_occurrences _). }
  - rewrite (downloadAndSaveDocs_others _ _ _ _ Hok).
    by rewrite (filter_falsy_unlisted _ _ Hslug).
  - apply (first_occurrences_from_NoDup [] _), NoDup_nil_2.
  - apply Forall_fmap, Forall_true. done.
  - intros slug. split.
    + intros Hin%first_occurrences_from_elem_inv.
      apply list_elem_of_fmap in Hin as (url & -> & Hurl).
      apply list_elem_of_filter in Hurl as [Hunlisted Hurl]. by exists url.
    + intros (url & Hurl & Hunlisted & <-).
      apply (first_occurrences_from_elem [] _), list_elem_of_fmap.
      exists url. split; [done|]. by apply list_elem_of_filter.
Qed.

(** Two unlisted URLs share the file name [overview], and a listed one has
    it too: one record, for the unlisted ones. *)
Lemma others_are_the_urls_without_navigation_href_witness :
  (downloadAndSaveDocs serving_world
     [URL_PREFIX ++ js "sdk/overview"; overview_url;
      URL_PREFIX ++ js "hooks"; URL_PREFIX ++ js "mcp/overview"]
     (navigation_structure [getting_started]) fresh).1
  = Ok [ {| OtherFile.slug := js "overview"; OtherFile.title := js "overview" |};
         {| OtherFile.slug := js "hooks"; OtherFile.title := js "hooks" |} ].
Proof.
  refine (eq_trans
            (proj1 (others_are_the_urls_without_navigation_href
                      serving_world (navigation_structure [getting_started])
                      [URL_PREFIX ++ js "sdk/overview"; overview_url;
                       URL_PREFIX ++ js "hooks"; URL_PREFIX ++ js "mcp/overview"]
                      fresh _ _)) _).
  - vm_compute. repeat constructor.
  - intros url category _ Hcategory _.
    apply list_elem_of_In in Hcategory. vm_compute in Hcategory.
    destruct Hcategory as [<-|[]]. discriminate.
  - vm_compute. reflexivity.
Defined.
